(** * Expense Splitter: the settlement engine of [ExpenseCalculator.py]

    A shallow embedding of the share accumulation loop, the surcharge
    allocation and [minimize_transactions], with the properties the
    specification states about them.

    Numbers.  The program computes on Python floats.  They are modelled as
    exact rationals ([Q]): every arithmetic operation is the exact one, and
    the literal [1e-9] is the rational [1/10^9].  Rounding is therefore not
    modelled; a statement "to floating-point tolerance" is read as the
    corresponding statement of exact arithmetic.  Equality of amounts is
    [Qeq] ([==]), equality of rationals.

    Containers.  A Python [dict] iterates in insertion order, and the
    program's result depends on that order (the sorts are stable), so a
    dict is an association list with pairwise distinct keys.  A Python
    list updated by index ([per_paid], [per_share], [debtors]) is a [list]
    with stdpp's lookup and insert; an index outside the list raises
    [IndexError] as in Python, negative indices count from the end. *)

From Stdlib Require Import QArith Qabs Qminmax Lqa Sorted.
From stdpp Require Import base list strings.

Open Scope Q_scope.
Open Scope string_scope.
Open Scope list_scope.

(** ** Numbers *)

Module Num.

(** [a < b] and [a <= b] as Python evaluates them, to a boolean. *)
Definition ltb (a b : Q) : bool := negb (Qle_bool b a).
Definition leb (a b : Q) : bool := Qle_bool a b.
Definition eqb (a b : Q) : bool := Qeq_bool a b.

(** The literal [1e-9]. *)
Definition eps : Q := 1 # 1000000000.

(** Python's [min(a, b)]: the first argument unless the second is
    strictly smaller. *)
Definition py_min (a b : Q) : Q := if ltb b a then b else a.

(** [sum(xs)]: left to right from [0]. *)
Definition sum (xs : list Q) : Q := fold_left Qplus xs 0.

(** [math.isclose(a, b)] with its defaults [rel_tol = 1e-09] and
    [abs_tol = 0.0]. *)
Definition isclose (a b : Q) : bool :=
  eqb a b
  || leb (Qabs (a - b)) (Qmax (eps * Qmax (Qabs a) (Qabs b)) 0).

End Num.

(** ** Errors *)

(** The two exceptions the arithmetic of the settlement block can raise. *)
Inductive exn : Type :=
  | IndexError
  | ZeroDivisionError.

Inductive result (A : Type) : Type :=
  | Ok (a : A)
  | Raise (e : exn).
Arguments Ok {A} a.
Arguments Raise {A} e.

Definition bind {A B : Type} (m : result A) (k : A -> result B) : result B :=
  match m with
  | Ok a => k a
  | Raise e => Raise e
  end.

Notation "'let*' x ':=' m 'in' k" := (bind m (fun x => k))
  (at level 10, x pattern, m at level 100, k at level 200).

(** ** Dictionaries *)

Module Dict.

(** An insertion-ordered dictionary: the items in the order their keys
    were first inserted. *)
Abbreviation t K V := (list (K * V)) (only parsing).

Definition keys {K V : Type} (d : t K V) : list K := fst <$> d.
Definition values {K V : Type} (d : t K V) : list V := snd <$> d.

(** The invariant of a dict: no key occurs twice. *)
Definition wf {K V : Type} (d : t K V) : Prop := NoDup (keys d).

Section WithKey.
Context {K V : Type} `{EqDecision K}.

Fixpoint get (d : t K V) (k : K) : option V :=
  match d with
  | [] => None
  | (k', v) :: d' => if decide (k' = k) then Some v else get d' k
  end.

(** [d[k] = v]: the value is replaced where the key stands, a new key
    goes to the end. *)
Fixpoint set (d : t K V) (k : K) (v : V) : t K V :=
  match d with
  | [] => [(k, v)]
  | (k', v') :: d' =>
      if decide (k' = k) then (k', v) :: d' else (k', v') :: set d' k v
  end.

End WithKey.

End Dict.

(** ** [minimize_transactions] *)

(** A two-element list [[person, amount]] of [debtors] or [creditors]. *)
Abbreviation entry := (string * Q)%type (only parsing).

(** A tuple [(d_person, c_person, transfer_amt)]. *)
Abbreviation transfer := (string * string * Q)%type (only parsing).

Abbreviation balances_t := (Dict.t string Q) (only parsing).

(** The body of [for person, bal in balances.items()]. *)
Definition classify (acc : list entry * list entry) (item : string * Q)
  : list entry * list entry :=
  let '(debtors, creditors) := acc in
  let '(person, bal) := item in
  if Num.ltb (Qabs bal) Num.eps then acc
  else if Num.ltb bal 0 then (debtors ++ [(person, - bal)], creditors)
  else (debtors, creditors ++ [(person, bal)]).

Definition partition_balances (balances : balances_t)
  : list entry * list entry :=
  fold_left classify balances ([], []).

(** [list.sort] is stable; the stably sorted arrangement of a list is
    unique, and insertion from the right computes it.  [before x y] says
    that [x] has to stand before an [y] that came after it. *)
Fixpoint insert_by (before : entry -> entry -> bool) (x : entry)
  (l : list entry) : list entry :=
  match l with
  | [] => [x]
  | y :: l' => if before x y then x :: y :: l' else y :: insert_by before x l'
  end.

Definition sort_by (before : entry -> entry -> bool) (l : list entry)
  : list entry :=
  foldr (insert_by before) [] l.

(** [l.sort(key=lambda x: x[1])]: ascending, equal keys keep their order. *)
Definition sort_asc : list entry -> list entry :=
  sort_by (fun x y => Num.leb x.2 y.2).

(** [l.sort(key=lambda x: x[1], reverse=True)]: descending, equal keys
    keep their order. *)
Definition sort_desc : list entry -> list entry :=
  sort_by (fun x y => Num.leb y.2 x.2).

(** The variables of the function while the loop runs.  [balances] is the
    caller's dictionary, which the function holds by reference. *)
Record frame : Type := Frame {
  balances : balances_t;
  debtors : list entry;
  creditors : list entry;
  i : nat;
  j : nat;
  transfers : list transfer
}.

(** [l[k][1] = v]. *)
Definition set_amount (l : list entry) (k : nat) (v : Q) : list entry :=
  match l !! k with
  | Some (person, _) => <[k := (person, v)]> l
  | None => l
  end.

Definition amount_at (l : list entry) (k : nat) : Q :=
  match l !! k with
  | Some (_, a) => a
  | None => 0
  end.

Definition loop_guard (s : frame) : bool :=
  bool_decide (i s < length (debtors s))%nat
  && bool_decide (j s < length (creditors s))%nat.

(** One pass through the body of the [while]; the guard holds, so both
    lookups succeed. *)
Definition loop_body (s : frame) : frame :=
  match debtors s !! i s, creditors s !! j s with
  | Some (d_person, d_amt), Some (c_person, c_amt) =>
      let transfer_amt := Num.py_min d_amt c_amt in
      let transfers' := transfers s ++ [(d_person, c_person, transfer_amt)] in
      let debtors' := set_amount (debtors s) (i s) (d_amt - transfer_amt) in
      let creditors' := set_amount (creditors s) (j s) (c_amt - transfer_amt) in
      let i' :=
        if Num.leb (amount_at debtors' (i s)) Num.eps then S (i s) else i s in
      let j' :=
        if Num.leb (amount_at creditors' (j s)) Num.eps then S (j s) else j s in
      Frame (balances s) debtors' creditors' i' j' transfers'
  | _, _ => s
  end.

(** The [while] loop, at most [fuel] passes; [None] when the guard still
    holds after them. *)
Fixpoint while_loop (fuel : nat) (s : frame) : option frame :=
  if loop_guard s then
    match fuel with
    | O => None
    | S fuel' => while_loop fuel' (loop_body s)
    end
  else Some s.

Definition init_frame (bals : balances_t) : frame :=
  let '(debtors0, creditors0) := partition_balances bals in
  Frame bals (sort_asc debtors0) (sort_desc creditors0) 0 0 [].

(** The function run for at most [fuel] passes of its loop: the frame at
    the [return]. *)
Definition minimize_transactions_run (fuel : nat) (bals : balances_t)
  : option frame :=
  while_loop fuel (init_frame bals).

(** [minimize_transactions(balances)]: the list it returns.  A dictionary
    of [n] items is settled within [n] passes ([run_returns] below), so
    the result is never [None]. *)
Definition minimize_transactions (bals : balances_t)
  : option (list transfer) :=
  transfers <$> minimize_transactions_run (length bals) bals.

(** ** Session state *)

(** An entry of [st.session_state.people]. *)
Record person : Type := Person {
  name : string;
  phone : string;
  upi : string
}.

(** An entry of [st.session_state.expenses].  [paid_by] and the indices of
    [custom_shares] and [included] are Python integers. *)
Record expense : Type := Expense {
  desc : string;
  amount : Q;
  paid_by : Z;
  split_mode : string;
  custom_shares : Dict.t Z Q;
  included : list Z
}.

Record session_state : Type := SessionState {
  people : list person;
  expenses : list expense
}.

(** [list(range(n))]. *)
Definition range (n : nat) : list Z := Z.of_nat <$> seq 0 n.

(** [x or default] on a list or a dict that may be [None]: the default
    replaces [None] and the empty container alike. *)
Definition or_else {A : Type} (x : option (list A)) (default : list A)
  : list A :=
  match x with
  | Some (a :: l) => a :: l
  | Some [] | None => default
  end.

Definition add_expense (st : session_state) (desc : string) (amount : Q)
  (paid_by_idx : Z) (split_mode : string)
  (custom_shares : option (Dict.t Z Q)) (included : option (list Z))
  : session_state :=
  SessionState (people st)
    (expenses st ++
     [Expense desc amount paid_by_idx split_mode
        (or_else custom_shares [])
        (or_else included (range (length (people st))))]).

(** The position [l[k]] designates in a list of length [n]: a negative
    [k] counts from the end, anything else outside raises. *)
Definition py_index (n : nat) (k : Z) : result nat :=
  if ((0 <=? k) && (k <? Z.of_nat n))%Z then Ok (Z.to_nat k)
  else if ((- Z.of_nat n <=? k) && (k <? 0))%Z
       then Ok (Z.to_nat (Z.of_nat n + k))
       else Raise IndexError.

(** [people.pop(index)]. *)
Definition remove_person (st : session_state) (index : Z)
  : result session_state :=
  let* k := py_index (length (people st)) index in
  Ok (SessionState (delete k (people st)) (expenses st)).

(** [expenses.pop(idx)]. *)
Definition remove_expense (st : session_state) (idx : Z)
  : result session_state :=
  let* k := py_index (length (expenses st)) idx in
  Ok (SessionState (people st) (delete k (expenses st))).

(** [add_person(name, phone, upi)]: the three strings are stripped and
    the person is appended.  [strip] stands for Python's [str.strip]. *)
Definition add_person (strip : string -> string) (st : session_state)
  (name phone upi : string) : session_state :=
  SessionState (people st ++ [Person (strip name) (strip phone) (strip upi)])
    (expenses st).

(** ** The settlement block *)

(** [l[k] += v]. *)
Definition add_at (l : list Q) (k : Z) (v : Q) : result (list Q) :=
  let* n := py_index (length l) k in
  match l !! n with
  | Some x => Ok (<[n := x + v]> l)
  | None => Raise IndexError
  end.

(** [a / b] on floats. *)
Definition py_div (a b : Q) : result Q :=
  if Num.eqb b 0 then Raise ZeroDivisionError else Ok (a / b).

(** A [for] loop whose body may raise. *)
Fixpoint for_each {A S : Type} (body : S -> A -> result S) (xs : list A)
  (s : S) : result S :=
  match xs with
  | [] => Ok s
  | x :: xs' => let* s' := body s x in for_each body xs' s'
  end.

(** The equal split, as the three places that perform it write it:
[[
    participants = e.get("included", list(range(N)))
    k = len(participants) or N
    per = amt / k
    for p in participants:
        per_share[p] += per
]]
    Every expense of the session state carries the key ["included"], so
    the default of [e.get] is never taken. *)
Definition split_equally (N : nat) (e : expense) (amt : Q)
  (per_share : list Q) : result (list Q) :=
  let participants := included e in
  let k := if (length participants =? 0)%nat then N else length participants in
  let* per := py_div amt (inject_Z (Z.of_nat k)) in
  for_each (fun per_share p => add_at per_share p per) participants per_share.

(** The [else] branch of ["custom %"]: the weights are normalised by
    their total. *)
Definition split_by_weights (shares : Dict.t Z Q) (total_pct amt : Q)
  (per_share : list Q) : result (list Q) :=
  for_each
    (fun per_share '(idx, pct) =>
       let* q := py_div pct total_pct in
       add_at per_share idx (amt * q))
    shares per_share.

Definition split_custom (N : nat) (e : expense) (amt : Q)
  (per_share : list Q) : result (list Q) :=
  let shares := custom_shares e in
  match shares with
  | [] => split_equally N e amt per_share
  | _ :: _ =>
      let s := Num.sum (Dict.values shares) in
      let total_pct := if Num.eqb s 0 then 0 else s in
      if Num.isclose total_pct 0 then split_equally N e amt per_share
      else split_by_weights shares total_pct amt per_share
  end.

(** The body of [for e in st.session_state.expenses], on the pair
    [(per_paid, per_share)].  A split mode other than the three adds to
    no share. *)
Definition process_expense (N : nat) (acc : list Q * list Q) (e : expense)
  : result (list Q * list Q) :=
  let '(per_paid, per_share) := acc in
  let amt := amount e in
  let payer := paid_by e in
  let* per_paid := add_at per_paid payer amt in
  if decide (split_mode e = "equal") then
    let* per_share := split_equally N e amt per_share in
    Ok (per_paid, per_share)
  else if decide (split_mode e = "custom %") then
    let* per_share := split_custom N e amt per_share in
    Ok (per_paid, per_share)
  else if decide (split_mode e = "specific persons") then
    let* per_share := split_equally N e amt per_share in
    Ok (per_paid, per_share)
  else Ok (per_paid, per_share).

(** Lines 372 to 415: the totals paid and the base shares. *)
Definition compute_shares (N : nat) (expenses : list expense)
  : result (list Q * list Q) :=
  for_each (process_expense N) expenses (replicate N 0, replicate N 0).

(** The sidebar settings read by the settlement block. *)
Record settings : Type := Settings {
  tip_mode : string;
  tip_value : Q;
  tax_percent : Q
}.

Definition tip_amount_of (cfg : settings) (total_base : Q) : Q :=
  if decide (tip_mode cfg = "Tip % (applied to total)") then
    total_base * (tip_value cfg / 100)
  else if decide (tip_mode cfg = "Tip fixed amount") then tip_value cfg
  else 0.

Definition tax_amount_of (cfg : settings) (total_base : Q) : Q :=
  total_base * (tax_percent cfg / 100).

(** The body of [for i in range(N)] of the allocation of tip and tax. *)
Definition allocate_one (total_base surcharge : Q) (per_share : list Q)
  (k : Z) : result (list Q) :=
  let* n := py_index (length per_share) k in
  match per_share !! n with
  | Some x =>
      let* proportion := py_div x total_base in
      add_at per_share k (proportion * surcharge)
  | None => Raise IndexError
  end.

(** Lines 417 to 430: the shares with tip and tax allocated. *)
Definition apply_surcharge (N : nat) (cfg : settings) (per_share : list Q)
  : result (list Q) :=
  let total_base := Num.sum per_share in
  let tip_amount := tip_amount_of cfg total_base in
  let tax_amount := tax_amount_of cfg total_base in
  if Num.ltb 0 total_base then
    for_each (allocate_one total_base (tip_amount + tax_amount))
      (range N) per_share
  else Ok per_share.

(** What the settlement block has computed when it calls
    [minimize_transactions]. *)
Record summary : Type := Summary {
  per_paid : list Q;
  per_share : list Q;
  total_base : Q;
  tip_amount : Q;
  tax_amount : Q;
  grand_total : Q;
  net_balances : balances_t
}.

(** [l[k]] for reading. *)
Definition get_at {A : Type} (l : list A) (k : Z) : result A :=
  let* n := py_index (length l) k in
  match l !! n with
  | Some x => Ok x
  | None => Raise IndexError
  end.

(** Lines 433 to 436:
    [balances[people[i]["name"]] = per_paid[i] - per_share[i]]. *)
Definition compute_balances (people : list person) (per_paid per_share : list Q)
  : result balances_t :=
  for_each
    (fun balances k =>
       let* paid := get_at per_paid k in
       let* share := get_at per_share k in
       let* p := get_at people k in
       Ok (Dict.set balances (name p) (paid - share)))
    (range (length people)) [].

(** The block under [if st.button("Calculate settlement")], up to the
    call of [minimize_transactions]; [None] is the warning shown when
    there are no people or no expenses. *)
Definition calculate_settlement (st : session_state) (cfg : settings)
  : result (option summary) :=
  match people st, expenses st with
  | [], _ | _, [] => Ok None
  | _ :: _, _ :: _ =>
      let N := length (people st) in
      let* totals := compute_shares N (expenses st) in
      let '(per_paid, per_share) := totals in
      let total_base := Num.sum per_share in
      let tip_amount := tip_amount_of cfg total_base in
      let tax_amount := tax_amount_of cfg total_base in
      let grand_total := total_base + tip_amount + tax_amount in
      let* per_share := apply_surcharge N cfg per_share in
      let* balances := compute_balances (people st) per_paid per_share in
      Ok (Some (Summary per_paid per_share total_base tip_amount tax_amount
                  grand_total balances))
  end.

(** ** Vocabulary of the specification *)

(** [foldr]-sum of a list of amounts, the sum the statements are about;
    [Num.sum] is equal to it ([sum_total]). *)
Definition total (xs : list Q) : Q := foldr Qplus 0 xs.

(** Applying a transfer to a balance mapping: the payer [from] has paid
    [amt] more and the receiver [to] has been paid [amt], so the net
    balance (paid minus share) of the first rises by [amt] and that of the
    second falls by [amt]. *)
Definition apply_transfer (b : balances_t) (t : transfer) : balances_t :=
  let '(from, to, amt) := t in
  (fun item : string * Q =>
     (item.1,
      item.2 + (if decide (item.1 = from) then amt else 0)
             - (if decide (item.1 = to) then amt else 0))) <$> b.

Definition apply_transfers (b : balances_t) (ts : list transfer)
  : balances_t :=
  fold_left apply_transfer ts b.



(** The debtors and the creditors of a balance mapping, in the order of
    the mapping: what the first loop of [minimize_transactions] collects
    ([partition_balances_spec]). *)
Definition is_debtor (bal : Q) : bool :=
  negb (Num.ltb (Qabs bal) Num.eps) && Num.ltb bal 0.

Definition is_creditor (bal : Q) : bool :=
  negb (Num.ltb (Qabs bal) Num.eps) && negb (Num.ltb bal 0).

Definition debtor_entries (b : balances_t) : list entry :=
  (fun item : string * Q => (item.1, - item.2))
    <$> filter (fun item : string * Q => is_debtor item.2) b.

Definition creditor_entries (b : balances_t) : list entry :=
  filter (fun item : string * Q => is_creditor item.2) b.

(** The two lists the [while] loop starts from. *)
Definition sorted_debtors (b : balances_t) : list entry :=
  sort_asc (debtor_entries b).

Definition sorted_creditors (b : balances_t) : list entry :=
  sort_desc (creditor_entries b).





(** A natural number as an amount. *)
Definition of_nat (n : nat) : Q := inject_Z (Z.of_nat n).

(** The invariant of the [while] loop of [minimize_transactions], for the
    sorted lists [D0] and [C0] the loop starts from.  An entry keeps its
    person; left of its pointer it is settled to within [eps], at or
    right of it it is still positive.  Every transfer goes from a debtor
    to a creditor and carries a positive amount, and each pass that adds
    a transfer moves a pointer. *)
Record loop_inv (D0 C0 : list entry) (s : frame) : Prop := LoopInv {
  inv_i : (i s <= length D0)%nat;
  inv_j : (j s <= length C0)%nat;
  inv_len_d : length (debtors s) = length D0;
  inv_len_c : length (creditors s) = length C0;
  inv_d : forall k p a, debtors s !! k = Some (p, a) ->
    (exists a0, D0 !! k = Some (p, a0))
    /\ ((k < i s)%nat -> 0 <= a /\ a <= Num.eps)
    /\ ((i s <= k)%nat -> 0 < a);
  inv_c : forall k p a, creditors s !! k = Some (p, a) ->
    (exists a0, C0 !! k = Some (p, a0))
    /\ ((k < j s)%nat -> 0 <= a /\ a <= Num.eps)
    /\ ((j s <= k)%nat -> 0 < a);
  inv_ts : Forall (fun t : transfer =>
                     t.1.1 ∈ D0.*1 /\ t.1.2 ∈ C0.*1 /\ 0 < t.2)
             (transfers s);
  inv_count : (length (transfers s) <= i s + j s)%nat
    /\ (transfers s = []
        \/ (length (transfers s) + 1 <= length D0 + length C0)%nat)
}.


(** An index inside a list of [N] participants. *)
Definition in_range (N : nat) (k : Z) : Prop := (0 <= k < Z.of_nat N)%Z.

(** The options of the "Split mode" select box. *)
Definition split_modes : list string :=
  ["equal"; "custom %"; "specific persons"].

(** An expense as the form records it for [N] people: its indices are
    inside the list, its split mode is one of the select box, and
    [included] is not empty ([add_expense] replaces an empty one). *)
Record wf_expense (N : nat) (e : expense) : Prop := WfExpense {
  wf_payer : in_range N (paid_by e);
  wf_included : Forall (in_range N) (included e);
  wf_shares : Forall (in_range N) (Dict.keys (custom_shares e));
  wf_nonempty : included e <> [];
  wf_mode : split_mode e ∈ split_modes
}.


(** An index that names no position of a list of [N] elements, also
    not from the end. *)
Definition outside (N : nat) (k : Z) : Prop :=
  (Z.of_nat N <= k \/ k < - Z.of_nat N)%Z.

(** The divisor [k] and the total [total_pct] of the settlement loop. *)
Definition equal_divisor (N : nat) (e : expense) : nat :=
  if (length (included e) =? 0)%nat then N else length (included e).

Definition total_pct_of (e : expense) : Q :=
  let s := Num.sum (Dict.values (custom_shares e)) in
  if Num.eqb s 0 then 0 else s.

(** Whether a ["custom %"] expense is split by its weights: there are
    weights and their total is not close to zero. *)
Definition uses_weights (e : expense) : bool :=
  match custom_shares e with
  | [] => false
  | _ :: _ => negb (Num.isclose (total_pct_of e) 0)
  end.

(** The additions [per_share[k] += v] an expense makes, as pairs
    [(k, v)] in the order of the additions. *)
Definition equal_updates (N : nat) (e : expense) : list (Z * Q) :=
  (fun p => (p, amount e / of_nat (equal_divisor N e))) <$> included e.

Definition weight_updates (e : expense) : list (Z * Q) :=
  (fun item : Z * Q => (item.1, amount e * (item.2 / total_pct_of e)))
    <$> custom_shares e.

Definition share_updates (N : nat) (e : expense) : list (Z * Q) :=
  if decide (split_mode e = "equal") then equal_updates N e
  else if decide (split_mode e = "custom %") then
    if uses_weights e then weight_updates e else equal_updates N e
  else if decide (split_mode e = "specific persons") then equal_updates N e
  else [].

(** The indices of [per_share] an expense adds to. *)
Definition share_indices (e : expense) : list Z :=
  if decide (split_mode e = "equal") then included e
  else if decide (split_mode e = "custom %") then
    if uses_weights e then Dict.keys (custom_shares e) else included e
  else if decide (split_mode e = "specific persons") then included e
  else [].

(** The indices an expense reads: the payer, then the shares. *)
Definition indices_read (e : expense) : list Z :=
  paid_by e :: share_indices e.

(** Two lists of amounts that hold equal rationals. *)
Definition same_amounts (l l' : list Q) : Prop := Forall2 Qeq l l'.



(** Two balance mappings, or two lists of transfers, with the same names
    in the same order and equal amounts. *)
Definition same_balances (d d' : balances_t) : Prop :=
  Forall2 (fun x y : string * Q => x.1 = y.1 /\ x.2 == y.2) d d'.

Definition same_transfers (ts ts' : list transfer) : Prop :=
  Forall2 (fun t t' : transfer => t.1 = t'.1 /\ t.2 == t'.2) ts ts'.


(** The additions [per_paid[k] += v] of the loop over the expenses, and
    all its additions to [per_share], in the order the loop makes them. *)
Definition paid_updates (es : list expense) : list (Z * Q) :=
  (fun e => (paid_by e, amount e)) <$> es.

Definition all_share_updates (N : nat) (es : list expense) : list (Z * Q) :=
  concat (share_updates N <$> es).

(** What a list of additions adds at the position [n]. *)
Definition added_at (us : list (Z * Q)) (n : nat) : Q :=
  total (snd <$> filter (fun u : Z * Q => u.1 = Z.of_nat n) us).

(** The items [balances[name] = paid - share] the settlement block
    assigns, person by person, and the dictionary the assignments
    build. *)
Definition balance_items (people : list person) (paid share : list Q)
  : list (string * Q) :=
  zip_with (fun (p : person) (xy : Q * Q) => (name p, xy.1 - xy.2))
    people (zip paid share).

Definition set_item (d : balances_t) (item : string * Q) : balances_t :=
  Dict.set d item.1 item.2.

Definition dict_of_items (items : list (string * Q)) : balances_t :=
  fold_left set_item items [].

(** A session as the page builds it without removing a person: from
    the reset state by adding people, by adding what the expense form
    submits (a payer of the select box, a split mode of the select box,
    weights and included people by their positions in the list), and by
    removing expenses. *)
Inductive session_built : session_state -> Prop :=
  | built_reset : session_built (SessionState [] [])
  | built_add_person strip st name phone upi :
      session_built st ->
      session_built (add_person strip st name phone upi)
  | built_add_expense st desc amt payer mode shares incl :
      session_built st ->
      people st <> [] ->
      in_range (length (people st)) payer ->
      mode ∈ split_modes ->
      Forall (in_range (length (people st))) (Dict.keys (or_else shares [])) ->
      Forall (in_range (length (people st))) (or_else incl []) ->
      session_built (add_expense st desc amt payer mode shares incl)
  | built_remove_expense st idx st' :
      session_built st ->
      remove_expense st idx = Ok st' ->
      session_built st'.


(** * Properties *)

(** ** Comparisons *)

Lemma ltb_true a b : Num.ltb a b = true <-> a < b.
Proof.
  unfold Num.ltb. rewrite negb_true_iff, <- not_true_iff_false, Qle_bool_iff.
  split; [apply Qnot_le_lt | apply Qlt_not_le].
Qed.

Lemma ltb_false a b : Num.ltb a b = false <-> b <= a.
Proof. unfold Num.ltb. rewrite negb_false_iff. apply Qle_bool_iff. Qed.

Lemma leb_true a b : Num.leb a b = true <-> a <= b.
Proof. apply Qle_bool_iff. Qed.

Lemma leb_false a b : Num.leb a b = false <-> b < a.
Proof.
  unfold Num.leb. rewrite <- not_true_iff_false, Qle_bool_iff.
  split; [apply Qnot_le_lt | apply Qlt_not_le].
Qed.

Lemma eqb_true a b : Num.eqb a b = true <-> a == b.
Proof. apply Qeq_bool_iff. Qed.

Lemma eqb_false a b : Num.eqb a b = false <-> ~ a == b.
Proof.
  unfold Num.eqb. rewrite <- not_true_iff_false, Qeq_bool_iff. reflexivity.
Qed.

(** Turns the boolean tests of the context into facts about rationals. *)
Ltac num_facts :=
  repeat match goal with
  | H : Num.ltb _ _ = true |- _ => apply ltb_true in H
  | H : Num.ltb _ _ = false |- _ => apply ltb_false in H
  | H : Num.leb _ _ = true |- _ => apply leb_true in H
  | H : Num.leb _ _ = false |- _ => apply leb_false in H
  | H : Num.eqb _ _ = true |- _ => apply eqb_true in H
  | H : Num.eqb _ _ = false |- _ => apply eqb_false in H
  end.

Lemma eps_pos : 0 < Num.eps.
Proof. reflexivity. Qed.

Lemma py_min_cases a b :
  (b < a /\ Num.py_min a b = b) \/ (a <= b /\ Num.py_min a b = a).
Proof.
  unfold Num.py_min. destruct (Num.ltb b a) eqn:E; num_facts; auto.
Qed.


(** ** Sums *)

Lemma total_app xs ys : total (xs ++ ys) == total xs + total ys.
Proof.
  induction xs as [|x xs IH]; simpl.
  - lra.
  - rewrite IH. lra.
Qed.

Lemma fold_left_plus xs a : fold_left Qplus xs a == a + total xs.
Proof.
  revert a. induction xs as [|x xs IH]; intros a; simpl.
  - lra.
  - rewrite IH. lra.
Qed.

Lemma sum_total xs : Num.sum xs == total xs.
Proof. unfold Num.sum. rewrite fold_left_plus. lra. Qed.



(** ** The loop of [minimize_transactions] *)


Lemma lookup_set_amount (l : list entry) k p a v n :
  l !! k = Some (p, a) ->
  set_amount l k v !! n = if decide (n = k) then Some (p, v) else l !! n.
Proof.
  intros Hk. unfold set_amount. rewrite Hk.
  destruct (decide (n = k)) as [->|Hne].
  - apply list_lookup_insert_eq. eapply lookup_lt_Some, Hk.
  - apply list_lookup_insert_ne. congruence.
Qed.

Lemma length_set_amount (l : list entry) k v :
  length (set_amount l k v) = length l.
Proof.
  unfold set_amount. destruct (l !! k) as [[p a]|]; [|reflexivity].
  apply length_insert.
Qed.

Lemma amount_at_set_amount (l : list entry) k p a v :
  l !! k = Some (p, a) -> amount_at (set_amount l k v) k = v.
Proof.
  intros Hk. unfold amount_at. rewrite (lookup_set_amount l k p a v k Hk).
  rewrite decide_True by reflexivity. reflexivity.
Qed.

Lemma loop_guard_true s :
  loop_guard s = true <->
  (i s < length (debtors s))%nat /\ (j s < length (creditors s))%nat.
Proof.
  unfold loop_guard. rewrite andb_true_iff, !bool_decide_eq_true. reflexivity.
Qed.




Lemma loop_body_unfold s dp da cp ca :
  debtors s !! i s = Some (dp, da) ->
  creditors s !! j s = Some (cp, ca) ->
  loop_body s =
  Frame (balances s)
    (set_amount (debtors s) (i s) (da - Num.py_min da ca))
    (set_amount (creditors s) (j s) (ca - Num.py_min da ca))
    (if Num.leb (da - Num.py_min da ca) Num.eps then S (i s) else i s)
    (if Num.leb (ca - Num.py_min da ca) Num.eps then S (j s) else j s)
    (transfers s ++ [(dp, cp, Num.py_min da ca)]).
Proof.
  intros Hd Hc. unfold loop_body. rewrite Hd, Hc.
  rewrite (amount_at_set_amount _ _ _ _ _ Hd).
  rewrite (amount_at_set_amount _ _ _ _ _ Hc). reflexivity.
Qed.

(** In the guard both lookups succeed. *)
Lemma loop_guard_lookup s :
  loop_guard s = true ->
  exists dp da cp ca,
    debtors s !! i s = Some (dp, da) /\ creditors s !! j s = Some (cp, ca).
Proof.
  intros Hg. apply loop_guard_true in Hg as [Hi Hj].
  destruct (lookup_lt_is_Some_2 _ _ Hi) as [[dp da] Hd].
  destruct (lookup_lt_is_Some_2 _ _ Hj) as [[cp ca] Hc].
  exists dp, da, cp, ca. split; assumption.
Qed.

(** The minimum exhausts one of the two sides. *)
Lemma py_min_exhausts da ca :
  da - Num.py_min da ca <= 0 \/ ca - Num.py_min da ca <= 0.
Proof. destruct (py_min_cases da ca) as [[H ->]|[H ->]]; lra. Qed.

Lemma loop_body_inv D0 C0 s :
  loop_inv D0 C0 s -> loop_guard s = true -> loop_inv D0 C0 (loop_body s).
Proof.
  intros Hinv Hg.
  destruct (loop_guard_lookup s Hg) as (dp & da & cp & ca & Hd & Hc).
  rewrite (loop_body_unfold s dp da cp ca Hd Hc).
  destruct Hinv as [Ii Ij Ild Ilc Id Ic Its Icnt].
  destruct (Id _ _ _ Hd) as ((d0 & Hd0) & _ & Hdpos).
  destruct (Ic _ _ _ Hc) as ((c0 & Hc0) & _ & Hcpos).
  specialize (Hdpos (Nat.le_refl _)). specialize (Hcpos (Nat.le_refl _)).
  assert (Hi : (i s < length D0)%nat) by (eapply lookup_lt_Some, Hd0).
  assert (Hj : (j s < length C0)%nat) by (eapply lookup_lt_Some, Hc0).
  pose proof (py_min_exhausts da ca) as Hzero.
  set (t := Num.py_min da ca) in *.
  assert (Ht : 0 < t /\ t <= da /\ t <= ca).
  { subst t. destruct (py_min_cases da ca) as [[H1 ->]|[H1 ->]]; lra. }
  destruct Ht as (Htpos & Htd & Htc).
  pose proof eps_pos as Heps.
  constructor; simpl.
  - destruct (Num.leb (da - t) Num.eps); lia.
  - destruct (Num.leb (ca - t) Num.eps); lia.
  - rewrite length_set_amount. exact Ild.
  - rewrite length_set_amount. exact Ilc.
  - intros k p a Hk. rewrite (lookup_set_amount _ _ _ _ _ k Hd) in Hk.
    destruct (decide (k = i s)) as [->|Hne].
    + injection Hk as <- <-. split; [exists d0; exact Hd0|].
      destruct (Num.leb (da - t) Num.eps) eqn:E; num_facts;
        split; intros; try lia; lra.
    + destruct (Id _ _ _ Hk) as (Ha0 & Hlt & Hge).
      split; [exact Ha0|].
      destruct (Num.leb (da - t) Num.eps);
        split; intros; first [apply Hlt | apply Hge]; lia.
  - intros k p a Hk. rewrite (lookup_set_amount _ _ _ _ _ k Hc) in Hk.
    destruct (decide (k = j s)) as [->|Hne].
    + injection Hk as <- <-. split; [exists c0; exact Hc0|].
      destruct (Num.leb (ca - t) Num.eps) eqn:E; num_facts;
        split; intros; try lia; lra.
    + destruct (Ic _ _ _ Hk) as (Ha0 & Hlt & Hge).
      split; [exact Ha0|].
      destruct (Num.leb (ca - t) Num.eps);
        split; intros; first [apply Hlt | apply Hge]; lia.
  - apply Forall_app. split; [exact Its|]. constructor; [|constructor].
    simpl. split; [|split; [|exact Htpos]].
    + apply (list_elem_of_lookup_2 _ (i s)).
      rewrite list_lookup_fmap, Hd0. reflexivity.
    + apply (list_elem_of_lookup_2 _ (j s)).
      rewrite list_lookup_fmap, Hc0. reflexivity.
  - rewrite length_app. simpl. destruct Icnt as [Hle _]. split.
    + assert (Hadv : Num.leb (da - t) Num.eps = true
                     \/ Num.leb (ca - t) Num.eps = true).
      { destruct Hzero; [left | right]; apply leb_true; lra. }
      destruct Hadv as [-> | ->]; destruct (Num.leb _ Num.eps); lia.
    + right. lia.
Qed.


(** Every pass moves a pointer and leaves the caller's dictionary and
    the lengths of the two lists alone. *)
Lemma loop_body_advances s :
  loop_guard s = true ->
  balances (loop_body s) = balances s
  /\ length (debtors (loop_body s)) = length (debtors s)
  /\ length (creditors (loop_body s)) = length (creditors s)
  /\ (i s <= i (loop_body s) <= S (i s))%nat
  /\ (j s <= j (loop_body s) <= S (j s))%nat
  /\ (i s + j s < i (loop_body s) + j (loop_body s))%nat.
Proof.
  intros Hg.
  destruct (loop_guard_lookup s Hg) as (dp & da & cp & ca & Hd & Hc).
  rewrite (loop_body_unfold s dp da cp ca Hd Hc). simpl.
  rewrite !length_set_amount.
  assert (Hadv : Num.leb (da - Num.py_min da ca) Num.eps = true
                 \/ Num.leb (ca - Num.py_min da ca) Num.eps = true).
  { pose proof eps_pos.
    destruct (py_min_exhausts da ca); [left | right]; apply leb_true; lra. }
  destruct Hadv as [-> | ->]; destruct (Num.leb _ Num.eps);
    repeat split; lia.
Qed.

(** What holds before the loop and is kept by every pass holds at the
    [return], where the guard has failed. *)
Lemma while_loop_invariant (P : frame -> Prop) :
  (forall s, P s -> loop_guard s = true -> P (loop_body s)) ->
  forall fuel s s', P s -> while_loop fuel s = Some s' ->
  P s' /\ loop_guard s' = false.
Proof.
  intros Hstep fuel. induction fuel as [|fuel IH]; intros s s' HP Hrun;
    simpl in Hrun; destruct (loop_guard s) eqn:Hg; try discriminate.
  - injection Hrun as <-. auto.
  - eapply IH; [|exact Hrun]. auto.
  - injection Hrun as <-. auto.
Qed.

(** The loop ends: the distance of the two pointers to the ends of their
    lists bounds the number of passes. *)
Lemma while_loop_terminates fuel s :
  (length (debtors s) - i s + (length (creditors s) - j s) <= S fuel)%nat ->
  is_Some (while_loop fuel s).
Proof.
  revert s. induction fuel as [|fuel IH]; intros s Hm; simpl;
    destruct (loop_guard s) eqn:Hg; try (eexists; reflexivity).
  - apply loop_guard_true in Hg. lia.
  - destruct (loop_body_advances s Hg) as (_ & Hd & Hc & Hi & Hj & Hadv).
    apply IH. apply loop_guard_true in Hg. lia.
Qed.

(** ** The partition and the two sorts *)

Lemma classify_spec (d c : list entry) (item : string * Q) :
  classify (d, c) item
  = (d ++ debtor_entries [item], c ++ creditor_entries [item]).
Proof.
  destruct item as [p bal]. unfold classify, debtor_entries, creditor_entries.
  rewrite !filter_cons, !filter_nil. unfold is_debtor, is_creditor. simpl.
  destruct (Num.ltb (Qabs bal) Num.eps); simpl.
  - rewrite !app_nil_r. reflexivity.
  - destruct (Num.ltb bal 0); simpl; rewrite app_nil_r; reflexivity.
Qed.

Lemma debtor_entries_cons item (b : balances_t) :
  debtor_entries (item :: b) = debtor_entries [item] ++ debtor_entries b.
Proof.
  unfold debtor_entries. rewrite <- fmap_app, <- filter_app. reflexivity.
Qed.

Lemma creditor_entries_cons item (b : balances_t) :
  creditor_entries (item :: b) = creditor_entries [item] ++ creditor_entries b.
Proof. unfold creditor_entries. rewrite <- filter_app. reflexivity. Qed.

Lemma fold_classify (b : balances_t) (d c : list entry) :
  fold_left classify b (d, c)
  = (d ++ debtor_entries b, c ++ creditor_entries b).
Proof.
  revert d c. induction b as [|item b IH]; intros d c; cbn [fold_left].
  - rewrite !app_nil_r. reflexivity.
  - rewrite classify_spec, IH, <- !app_assoc.
    rewrite <- debtor_entries_cons, <- creditor_entries_cons. reflexivity.
Qed.

Lemma partition_balances_spec (b : balances_t) :
  partition_balances b = (debtor_entries b, creditor_entries b).
Proof. apply (fold_classify b [] []). Qed.

Lemma insert_by_perm before x (l : list entry) :
  insert_by before x l ≡ₚ x :: l.
Proof.
  induction l as [|y l IH]; simpl; [reflexivity|].
  destruct (before x y); [reflexivity|].
  rewrite IH. apply Permutation_swap.
Qed.

Lemma sort_by_perm before (l : list entry) : sort_by before l ≡ₚ l.
Proof.
  induction l as [|x l IH]; simpl; [reflexivity|].
  rewrite insert_by_perm, IH. reflexivity.
Qed.

Lemma is_debtor_spec bal :
  is_debtor bal = true <-> bal <= - Num.eps.
Proof.
  unfold is_debtor. rewrite andb_true_iff, negb_true_iff, ltb_false, ltb_true.
  pose proof eps_pos. split.
  - intros [H1 H2]. rewrite Qabs_neg in H1 by lra. lra.
  - intros H1. split; [|lra]. rewrite Qabs_neg by lra. lra.
Qed.

Lemma is_creditor_spec bal :
  is_creditor bal = true <-> Num.eps <= bal.
Proof.
  unfold is_creditor.
  rewrite andb_true_iff, !negb_true_iff, !ltb_false.
  pose proof eps_pos. split.
  - intros [H1 H2]. rewrite Qabs_pos in H1 by lra. lra.
  - intros H1. split; [|lra]. rewrite Qabs_pos by lra. lra.
Qed.

Lemma debtor_entries_pos (b : balances_t) :
  Forall (fun e : entry => 0 < e.2) (debtor_entries b).
Proof.
  unfold debtor_entries. apply Forall_fmap, Forall_forall.
  intros [p bal] Hin. apply list_elem_of_filter in Hin as [Hd _].
  simpl in *. apply Is_true_true, is_debtor_spec in Hd.
  pose proof eps_pos. lra.
Qed.

Lemma creditor_entries_pos (b : balances_t) :
  Forall (fun e : entry => 0 < e.2) (creditor_entries b).
Proof.
  unfold creditor_entries. apply Forall_forall.
  intros [p bal] Hin. apply list_elem_of_filter in Hin as [Hc _].
  simpl in *. apply Is_true_true, is_creditor_spec in Hc.
  pose proof eps_pos. lra.
Qed.




(** ** The run of [minimize_transactions] *)

Lemma init_frame_eq (b : balances_t) :
  init_frame b = Frame b (sorted_debtors b) (sorted_creditors b) 0 0 [].
Proof. unfold init_frame. rewrite partition_balances_spec. reflexivity. Qed.

Lemma sorted_debtors_perm (b : balances_t) :
  sorted_debtors b ≡ₚ debtor_entries b.
Proof. apply sort_by_perm. Qed.

Lemma sorted_creditors_perm (b : balances_t) :
  sorted_creditors b ≡ₚ creditor_entries b.
Proof. apply sort_by_perm. Qed.

Lemma entries_length (b : balances_t) :
  (length (debtor_entries b) + length (creditor_entries b) <= length b)%nat.
Proof.
  induction b as [|[p bal] b IH]; [reflexivity|].
  rewrite debtor_entries_cons, creditor_entries_cons, !length_app.
  unfold debtor_entries at 1, creditor_entries at 1.
  rewrite !filter_cons, !filter_nil. simpl.
  destruct (is_debtor bal) eqn:Ed, (is_creditor bal) eqn:Ec; simpl; try lia.
  apply is_debtor_spec in Ed. apply is_creditor_spec in Ec.
  pose proof eps_pos. lra.
Qed.

Lemma sorted_length (b : balances_t) :
  (length (sorted_debtors b) + length (sorted_creditors b) <= length b)%nat.
Proof.
  rewrite sorted_debtors_perm, sorted_creditors_perm. apply entries_length.
Qed.


Lemma init_inv (b : balances_t) :
  loop_inv (sorted_debtors b) (sorted_creditors b) (init_frame b).
Proof.
  rewrite init_frame_eq. constructor; simpl; try lia; try reflexivity.
  - intros k p a Hk. split; [eauto|]. split; [lia|]. intros _.
    assert (Hpos : Forall (fun e : entry => 0 < e.2) (sorted_debtors b)).
    { rewrite sorted_debtors_perm. apply debtor_entries_pos. }
    apply (Forall_lookup_1 _ _ _ _ Hpos Hk).
  - intros k p a Hk. split; [eauto|]. split; [lia|]. intros _.
    assert (Hpos : Forall (fun e : entry => 0 < e.2) (sorted_creditors b)).
    { rewrite sorted_creditors_perm. apply creditor_entries_pos. }
    apply (Forall_lookup_1 _ _ _ _ Hpos Hk).
  - constructor.
  - auto.
Qed.


(** The function returns: a dictionary of [n] items is settled within
    [n] passes, the guard has failed at the [return], and the invariant
    holds there. *)
Lemma run_returns (b : balances_t) :
  exists s, minimize_transactions_run (length b) b = Some s
    /\ loop_inv (sorted_debtors b) (sorted_creditors b) s
    /\ balances s = b
    /\ loop_guard s = false.
Proof.
  unfold minimize_transactions_run.
  destruct (while_loop_terminates (length b) (init_frame b)) as [s Hs].
  { rewrite init_frame_eq. simpl. pose proof (sorted_length b). lia. }
  exists s. split; [exact Hs|].
  destruct (while_loop_invariant
              (fun s => loop_inv (sorted_debtors b) (sorted_creditors b) s
                        /\ balances s = b)
              ) with (fuel := length b) (s := init_frame b) (s' := s)
    as [[Hinv Hbal] Hg]; auto.
  - intros s0 [Hinv Hbal] Hg. split; [apply loop_body_inv; assumption|].
    destruct (loop_body_advances s0 Hg) as [-> _]. exact Hbal.
  - split; [apply init_inv|]. rewrite init_frame_eq. reflexivity.
Qed.

Lemma minimize_transactions_run_eq (b : balances_t) s :
  minimize_transactions_run (length b) b = Some s ->
  minimize_transactions b = Some (transfers s).
Proof. intros H. unfold minimize_transactions. rewrite H. reflexivity. Qed.


(** More fuel than needed changes nothing. *)
Lemma while_loop_fuel_mono fuel fuel' s s' :
  while_loop fuel s = Some s' -> (fuel <= fuel')%nat ->
  while_loop fuel' s = Some s'.
Proof.
  revert fuel' s. induction fuel as [|fuel IH]; intros fuel' s Hrun Hle;
    simpl in Hrun; destruct (loop_guard s) eqn:Hg; try discriminate.
  - destruct fuel'; simpl; rewrite Hg; exact Hrun.
  - destruct fuel' as [|fuel']; [lia|]. simpl. rewrite Hg.
    apply IH; [exact Hrun | lia].
  - destruct fuel'; simpl; rewrite Hg; exact Hrun.
Qed.

(** ** Applying the transfers *)

Lemma total_cons x xs : total (x :: xs) = x + total xs.
Proof. reflexivity. Qed.




Lemma keys_apply_transfer (b : balances_t) t :
  Dict.keys (apply_transfer b t) = Dict.keys b.
Proof.
  destruct t as [[from to] amt]. unfold Dict.keys, apply_transfer.
  rewrite <- list_fmap_compose. reflexivity.
Qed.


Lemma keys_apply_transfers (b : balances_t) ts :
  Dict.keys (apply_transfers b ts) = Dict.keys b.
Proof.
  revert b. induction ts as [|t ts IH]; intros b; simpl; [reflexivity|].
  unfold apply_transfers in *. simpl. rewrite IH. apply keys_apply_transfer.
Qed.







(** ** Sums that vanish *)

Lemma of_nat_S n : of_nat (S n) == of_nat n + 1.
Proof.
  unfold of_nat. rewrite Nat2Z.inj_succ. unfold Z.succ.
  rewrite inject_Z_plus. reflexivity.
Qed.


Lemma of_nat_nonneg n : 0 <= of_nat n.
Proof.
  induction n as [|n IH]; [apply Qle_refl|].
  rewrite of_nat_S. lra.
Qed.




(** ** The balances after the transfers *)













(** ** Claims on [minimize_transactions] *)







(** C9: the call leaves the caller's dictionary as it found it: the
    frame at the [return] holds the dictionary it was given. *)
Theorem balances_unchanged (b : balances_t) :
  exists s, minimize_transactions_run (length b) b = Some s
    /\ minimize_transactions b = Some (transfers s)
    /\ balances s = b.
Proof.
  destruct (run_returns b) as (s & Hrun & _ & Hbal & _).
  exists s. auto using minimize_transactions_run_eq.
Qed.


(** ** Lists updated by index *)

Lemma py_index_in_range N k :
  in_range N k -> py_index N k = Ok (Z.to_nat k) /\ (Z.to_nat k < N)%nat.
Proof.
  unfold in_range, py_index. intros [H0 HN].
  apply Z.leb_le in H0 as H0'. apply Z.ltb_lt in HN as HN'.
  rewrite H0', HN'. simpl. split; [reflexivity | lia].
Qed.

Lemma py_index_of_nat N n :
  (n < N)%nat -> py_index N (Z.of_nat n) = Ok n.
Proof.
  intros Hn. destruct (py_index_in_range N (Z.of_nat n)) as [-> _].
  - unfold in_range. lia.
  - rewrite Nat2Z.id. reflexivity.
Qed.

Lemma total_insert (l : list Q) n x y :
  l !! n = Some x -> total (<[n := y]> l) == total l - x + y.
Proof.
  revert n. induction l as [|z l IH]; intros [|n] Hn; try discriminate.
  - injection Hn as ->. simpl. lra.
  - simpl in *. rewrite (IH n Hn). lra.
Qed.

(** [l[k] += v] inside the list: the length stays and the sum grows by
    [v]. *)
Lemma add_at_in_range (l : list Q) k v :
  in_range (length l) k ->
  exists l', add_at l k v = Ok l' /\ length l' = length l
    /\ total l' == total l + v.
Proof.
  intros Hk. unfold add_at.
  destruct (py_index_in_range _ _ Hk) as [-> Hlt]. simpl.
  destruct (lookup_lt_is_Some_2 l _ Hlt) as [x Hx]. rewrite Hx.
  eexists. split; [reflexivity|]. split; [apply length_insert|].
  rewrite (total_insert _ _ _ _ Hx). lra.
Qed.

(** [l[k] += v] at the position that follows [pre]. *)
Lemma add_at_middle (pre post : list Q) x v :
  add_at (pre ++ x :: post) (Z.of_nat (length pre)) v
  = Ok (pre ++ (x + v) :: post).
Proof.
  unfold add_at. rewrite py_index_of_nat.
  - simpl. rewrite list_lookup_middle by reflexivity.
    rewrite insert_app_r_alt by lia. rewrite Nat.sub_diag. reflexivity.
  - rewrite length_app. simpl. lia.
Qed.

(** A loop over [range(len(l))] whose body rewrites the element at its
    index rewrites every element. *)
Lemma for_each_range_from (f : Q -> Q) body (pre l : list Q) :
  (forall pre x post,
     body (pre ++ x :: post) (Z.of_nat (length pre))
     = Ok (pre ++ f x :: post)) ->
  for_each body (Z.of_nat <$> seq (length pre) (length l)) (pre ++ l)
  = Ok (pre ++ (f <$> l)).
Proof.
  intros Hbody. revert pre. induction l as [|x l IH]; intros pre.
  - reflexivity.
  - simpl. rewrite Hbody. simpl.
    specialize (IH (pre ++ [f x])). rewrite length_app in IH. simpl in IH.
    rewrite Nat.add_1_r, <- !app_assoc in IH. exact IH.
Qed.

Lemma for_each_range (f : Q -> Q) body (l : list Q) :
  (forall pre x post,
     body (pre ++ x :: post) (Z.of_nat (length pre))
     = Ok (pre ++ f x :: post)) ->
  for_each body (range (length l)) l = Ok (f <$> l).
Proof. intros Hbody. apply (for_each_range_from f body [] l Hbody). Qed.


Lemma of_nat_pos n : (0 < n)%nat -> 0 < of_nat n.
Proof.
  destruct n as [|n]; [lia|]. intros _. rewrite of_nat_S.
  pose proof (of_nat_nonneg n). lra.
Qed.

Lemma py_div_ok a b : ~ b == 0 -> py_div a b = Ok (a / b).
Proof.
  intros Hb. unfold py_div. apply eqb_false in Hb. rewrite Hb. reflexivity.
Qed.

(** ** The three splits *)

(** The loop [for p in participants: per_share[p] += per]. *)
Lemma add_per_each (N : nat) per (participants : list Z) (l : list Q) :
  Forall (in_range N) participants -> length l = N ->
  exists l', for_each (fun l p => add_at l p per) participants l = Ok l'
    /\ length l' = N
    /\ total l' == total l + of_nat (length participants) * per.
Proof.
  intros Hin. revert l. induction Hin as [|p ps Hp _ IH]; intros l Hlen.
  - exists l. split; [reflexivity|]. split; [exact Hlen|].
    change (total l == total l + 0 * per). ring.
  - simpl for_each. rewrite <- Hlen in Hp.
    destruct (add_at_in_range l p per Hp) as (l1 & -> & Hlen1 & Htot1).
    simpl. destruct (IH l1) as (l' & -> & Hlen' & Htot'); [congruence|].
    exists l'. split; [reflexivity|]. split; [exact Hlen'|].
    rewrite Htot', Htot1. simpl length. rewrite of_nat_S. ring.
Qed.

(** With somebody included, the equal split adds [amt / k] for each of
    the [k] entries of [included]. *)
Lemma split_equally_unfold (N : nat) e amt (l : list Q) :
  included e <> [] ->
  split_equally N e amt l
  = for_each (fun l p => add_at l p (amt / of_nat (length (included e))))
      (included e) l.
Proof.
  intros Hne. unfold split_equally.
  destruct (included e) as [|p ps] eqn:Hinc; [congruence|].
  assert (Hk : 0 < of_nat (length (p :: ps))) by (apply of_nat_pos; simpl; lia).
  change (if (length (p :: ps) =? 0)%nat then N else length (p :: ps))
    with (length (p :: ps)).
  fold (of_nat (length (p :: ps))). rewrite py_div_ok by lra. reflexivity.
Qed.

(** The equal split hands out the whole amount. *)
Lemma split_equally_conserves (N : nat) e amt (l : list Q) :
  Forall (in_range N) (included e) -> included e <> [] -> length l = N ->
  exists l', split_equally N e amt l = Ok l'
    /\ length l' = N /\ total l' == total l + amt.
Proof.
  intros Hin Hne Hlen. rewrite (split_equally_unfold N e amt l Hne).
  destruct (add_per_each N (amt / of_nat (length (included e))) (included e) l
              Hin Hlen) as (l' & -> & Hlen' & Htot').
  exists l'. split; [reflexivity|]. split; [exact Hlen'|].
  rewrite Htot'. field.
  assert (0 < of_nat (length (included e))); [|lra].
  apply of_nat_pos. destruct (included e); [congruence | simpl; lia].
Qed.

(** The split by weights hands out the amount times the sum of the
    weights over [total_pct]. *)
Lemma split_by_weights_total (N : nat) (shares : Dict.t Z Q) total_pct amt
  (l : list Q) :
  ~ total_pct == 0 -> Forall (in_range N) (Dict.keys shares) ->
  length l = N ->
  exists l', split_by_weights shares total_pct amt l = Ok l'
    /\ length l' = N
    /\ total l' == total l + amt * (total (Dict.values shares) / total_pct).
Proof.
  intros Hnz Hin. unfold split_by_weights, Dict.keys, Dict.values.
  revert l. induction shares as [|[idx pct] shares IH]; intros l Hlen.
  - exists l. split; [reflexivity|]. split; [exact Hlen|].
    change (total l == total l + amt * (0 / total_pct)). field. exact Hnz.
  - apply Forall_cons in Hin as [Hidx Hin]. simpl in Hidx.
    simpl for_each. rewrite py_div_ok by exact Hnz. simpl bind.
    rewrite <- Hlen in Hidx.
    destruct (add_at_in_range l idx (amt * (pct / total_pct)) Hidx)
      as (l1 & -> & Hlen1 & Htot1).
    cbn [bind].
    destruct (IH Hin l1) as (l' & -> & Hlen' & Htot'); [congruence|].
    exists l'. split; [reflexivity|]. split; [exact Hlen'|].
    rewrite Htot', Htot1, fmap_cons, total_cons. cbn [snd]. field. exact Hnz.
Qed.

(** [math.isclose(t, 0.0)] holds of [0] alone: the relative tolerance
    of nothing is nothing. *)
Lemma isclose_zero t : Num.isclose t 0 = true <-> t == 0.
Proof.
  unfold Num.isclose. rewrite orb_true_iff, eqb_true, leb_true.
  split; [|auto]. intros [H | H]; [exact H|].
  assert (Ht0 : Qabs (t - 0) == Qabs t) by (apply Qabs_wd; ring).
  pose proof (Qabs_nonneg t) as Ha. change (Qabs 0) with 0 in H.
  rewrite Ht0, (Q.max_l (Qabs t) 0 Ha) in H.
  assert (Hm : 0 <= Num.eps * Qabs t).
  { apply Qmult_le_0_compat; [apply Qlt_le_weak, eps_pos | exact Ha]. }
  rewrite (Q.max_l _ 0 Hm) in H.
  assert (Hz : Qabs t == 0) by (unfold Num.eps in *; lra).
  revert Hz. apply (Qabs_case t); intros; lra.
Qed.

(** An empty mapping of weights, or weights that sum to zero, fall back
    to the equal split. *)
Lemma split_custom_fallback (N : nat) e amt (l : list Q) :
  custom_shares e = [] \/ total (Dict.values (custom_shares e)) == 0 ->
  split_custom N e amt l = split_equally N e amt l.
Proof.
  unfold split_custom. intros [-> | Hz]; [reflexivity|].
  destruct (custom_shares e) as [|item shares]; [reflexivity|].
  rewrite <- sum_total in Hz. apply eqb_true in Hz. rewrite Hz.
  assert (Hc : Num.isclose 0 0 = true) by (apply isclose_zero; reflexivity).
  rewrite Hc. reflexivity.
Qed.

(** Weights that do not sum to zero are normalised by their sum. *)
Lemma split_custom_weights (N : nat) e amt (l : list Q) :
  custom_shares e <> [] -> ~ total (Dict.values (custom_shares e)) == 0 ->
  split_custom N e amt l
  = split_by_weights (custom_shares e)
      (Num.sum (Dict.values (custom_shares e))) amt l.
Proof.
  unfold split_custom. intros Hne Hnz.
  destruct (custom_shares e) as [|item shares]; [congruence|].
  rewrite <- sum_total in Hnz. apply eqb_false in Hnz as Hb. rewrite Hb.
  destruct (Num.isclose _ 0) eqn:Hc; [|reflexivity].
  apply isclose_zero in Hc. contradiction.
Qed.

Lemma split_custom_conserves (N : nat) e amt (l : list Q) :
  wf_expense N e -> length l = N ->
  exists l', split_custom N e amt l = Ok l'
    /\ length l' = N /\ total l' == total l + amt.
Proof.
  intros [_ Hinc Hsh Hne _] Hlen.
  destruct (decide (custom_shares e = [])) as [He|He].
  { rewrite split_custom_fallback by auto.
    apply split_equally_conserves; assumption. }
  destruct (Qeq_dec (total (Dict.values (custom_shares e))) 0) as [Hz|Hnz].
  { rewrite split_custom_fallback by auto.
    apply split_equally_conserves; assumption. }
  rewrite split_custom_weights by assumption.
  assert (Hnz' : ~ Num.sum (Dict.values (custom_shares e)) == 0)
    by (rewrite sum_total; exact Hnz).
  destruct (split_by_weights_total N (custom_shares e) _ amt l Hnz' Hsh Hlen)
    as (l' & -> & Hlen' & Htot').
  exists l'. split; [reflexivity|]. split; [exact Hlen'|].
  rewrite Htot', sum_total. field. exact Hnz.
Qed.

(** One expense adds its amount to the total paid and to the total of
    the shares. *)
Lemma process_expense_conserves (N : nat) e (paid share : list Q) :
  wf_expense N e -> length paid = N -> length share = N ->
  exists paid' share',
    process_expense N (paid, share) e = Ok (paid', share')
    /\ length paid' = N /\ length share' = N
    /\ total paid' == total paid + amount e
    /\ total share' == total share + amount e.
Proof.
  intros Hwf Hlp Hls. pose proof Hwf as [Hpay Hinc _ Hne Hmode].
  unfold process_expense. rewrite <- Hlp in Hpay.
  destruct (add_at_in_range paid (paid_by e) (amount e) Hpay)
    as (paid' & -> & Hlp' & Hpaid).
  cbn [bind]. exists paid'.
  unfold split_modes in Hmode.
  repeat (apply elem_of_cons in Hmode as [Hmode | Hmode]);
    [| | | inversion Hmode]; rewrite Hmode; simpl decide.
  - destruct (split_equally_conserves N e (amount e) share Hinc Hne Hls)
      as (share' & -> & Hls' & Hshare).
    exists share'. repeat split; auto; congruence.
  - destruct (split_custom_conserves N e (amount e) share Hwf Hls)
      as (share' & -> & Hls' & Hshare).
    exists share'. repeat split; auto; congruence.
  - destruct (split_equally_conserves N e (amount e) share Hinc Hne Hls)
      as (share' & -> & Hls' & Hshare).
    exists share'. repeat split; auto; congruence.
Qed.

Lemma for_each_process_conserves (N : nat) es (paid share : list Q) :
  Forall (wf_expense N) es -> length paid = N -> length share = N ->
  exists paid' share',
    for_each (process_expense N) es (paid, share) = Ok (paid', share')
    /\ length paid' = N /\ length share' = N
    /\ total paid' == total paid + total (amount <$> es)
    /\ total share' == total share + total (amount <$> es).
Proof.
  intros Hwf. revert paid share.
  induction Hwf as [|e es He _ IH]; intros paid share Hlp Hls.
  - exists paid, share. repeat split; auto;
      change (total (amount <$> [])) with 0; ring.
  - cbn [for_each].
    destruct (process_expense_conserves N e paid share He Hlp Hls)
      as (paid1 & share1 & -> & Hlp1 & Hls1 & Hp1 & Hs1).
    cbn [bind].
    destruct (IH paid1 share1 Hlp1 Hls1)
      as (paid' & share' & -> & Hlp' & Hls' & Hp' & Hs').
    exists paid', share'. rewrite fmap_cons, total_cons.
    repeat split; auto; [rewrite Hp', Hp1 | rewrite Hs', Hs1]; ring.
Qed.


(** ** Claims on the settlement block *)



Lemma length_range n : length (range n) = n.
Proof. unfold range. rewrite length_fmap. apply length_seq. Qed.

Lemma range_in_range n : Forall (in_range n) (range n).
Proof.
  unfold range. apply Forall_fmap, Forall_forall. intros k Hk.
  apply elem_of_seq in Hk. unfold compose, in_range. lia.
Qed.

Lemma range_nonempty {A : Type} (l : list A) :
  l <> [] -> range (length l) <> [].
Proof.
  intros Hl H. apply (f_equal length) in H. rewrite length_range in H.
  destruct l; [congruence | discriminate].
Qed.

(** What the form hands to [add_expense] is recorded as a well-formed
    expense: an empty [included] is replaced by everybody. *)
Lemma add_expense_wf st desc amt payer mode shares incl :
  people st <> [] ->
  in_range (length (people st)) payer ->
  Forall (in_range (length (people st))) (or_else incl []) ->
  Forall (in_range (length (people st))) (Dict.keys (or_else shares [])) ->
  mode ∈ split_modes ->
  exists e,
    expenses (add_expense st desc amt payer mode shares incl)
    = expenses st ++ [e]
    /\ wf_expense (length (people st)) e.
Proof.
  intros Hpeople Hpay Hincl Hshares Hmode. eexists. split; [reflexivity|].
  pose proof (range_in_range (length (people st))) as Hrange.
  pose proof (range_nonempty (people st) Hpeople) as Hne.
  constructor; simpl; auto.
  - destruct incl as [[|k incl]|]; simpl in *; auto.
  - destruct incl as [[|k incl]|]; simpl; auto; discriminate.
Qed.

Lemma process_expense_equal (N : nat) e (paid share : list Q) :
  split_mode e = "equal" ->
  process_expense N (paid, share) e
  = (let* paid' := add_at paid (paid_by e) (amount e) in
     let* share' := split_equally N e (amount e) share in
     Ok (paid', share')).
Proof. intros H. unfold process_expense. rewrite H. reflexivity. Qed.

Lemma process_expense_custom (N : nat) e (paid share : list Q) :
  split_mode e = "custom %" ->
  process_expense N (paid, share) e
  = (let* paid' := add_at paid (paid_by e) (amount e) in
     let* share' := split_custom N e (amount e) share in
     Ok (paid', share')).
Proof. intros H. unfold process_expense. rewrite H. reflexivity. Qed.




(** The body of the allocation loop at the position that follows [pre]. *)
Lemma allocate_one_middle total_base surcharge (pre post : list Q) x :
  ~ total_base == 0 ->
  allocate_one total_base surcharge (pre ++ x :: post)
    (Z.of_nat (length pre))
  = Ok (pre ++ (x + x / total_base * surcharge) :: post).
Proof.
  intros Hnz. unfold allocate_one. rewrite py_index_of_nat.
  - cbn [bind]. rewrite list_lookup_middle by reflexivity.
    rewrite py_div_ok by exact Hnz. cbn [bind]. apply add_at_middle.
  - rewrite length_app. simpl. lia.
Qed.

Lemma total_fmap_proportion (tb sur : Q) (l : list Q) :
  ~ tb == 0 ->
  total ((fun x => x + x / tb * sur) <$> l) == total l + total l / tb * sur.
Proof.
  intros Hnz. induction l as [|x l IH].
  - change (0 == 0 + 0 / tb * sur). field. exact Hnz.
  - rewrite fmap_cons, !total_cons, IH. field. exact Hnz.
Qed.

(** C4: with a positive base total every share grows by its proportion
    of tip plus tax, and the shares then sum to base total plus tip plus
    tax; with a base total of zero the shares stay as they are.  The tip
    is the percentage of the base total, the fixed amount, or nothing. *)
Theorem surcharge_allocation (cfg : settings) (per_share : list Q) :
  let total_base := Num.sum per_share in
  let tip_amount := tip_amount_of cfg total_base in
  let tax_amount := tax_amount_of cfg total_base in
  let share' :=
    (fun x => x + x / total_base * (tip_amount + tax_amount)) <$> per_share in
  (0 < total_base ->
     apply_surcharge (length per_share) cfg per_share = Ok share'
     /\ total share' == total_base + tip_amount + tax_amount)
  /\ (total_base == 0 ->
        apply_surcharge (length per_share) cfg per_share = Ok per_share)
  /\ (tip_mode cfg = "Tip % (applied to total)" ->
        tip_amount == total_base * tip_value cfg / 100)
  /\ (tip_mode cfg = "Tip fixed amount" -> tip_amount = tip_value cfg)
  /\ (tip_mode cfg = "No Tip" -> tip_amount = 0)
  /\ tax_amount == total_base * tax_percent cfg / 100.
Proof.
  intros total_base tip_amount tax_amount share'.
  unfold apply_surcharge. fold total_base tip_amount tax_amount.
  split; [|split; [|split; [|split; [|split]]]].
  - intros Hpos. apply ltb_true in Hpos as Hb. rewrite Hb. split.
    + apply for_each_range. intros pre x post.
      apply allocate_one_middle. lra.
    + subst share'. rewrite total_fmap_proportion by lra.
      assert (Hsum : total per_share == total_base)
        by (symmetry; apply sum_total).
      rewrite Hsum. field. lra.
  - intros Hz. assert (Hb : Num.ltb 0 total_base = false)
      by (apply ltb_false; lra).
    rewrite Hb. reflexivity.
  - intros Hm. subst tip_amount. unfold tip_amount_of.
    rewrite Hm, decide_True by reflexivity. field.
  - intros Hm. subst tip_amount. unfold tip_amount_of.
    rewrite Hm, decide_False, decide_True by (reflexivity || discriminate).
    reflexivity.
  - intros Hm. subst tip_amount. unfold tip_amount_of.
    rewrite Hm, !decide_False by discriminate. reflexivity.
  - subst tax_amount. unfold tax_amount_of. field.
Qed.

(** ** Equal amounts give equal outcomes *)







(** ** References outside the list of people *)

Lemma add_at_length (l l' : list Q) k v :
  add_at l k v = Ok l' -> length l' = length l.
Proof.
  unfold add_at. destruct (py_index (length l) k) as [n|x]; [|discriminate].
  cbn [bind]. destruct (l !! n); [|discriminate].
  intros H. injection H as <-. apply length_insert.
Qed.

Lemma py_index_outside N k :
  (Z.of_nat N <= k \/ k < - Z.of_nat N)%Z -> py_index N k = Raise IndexError.
Proof.
  intros Hk. unfold py_index.
  destruct (0 <=? k)%Z eqn:H0, (k <? Z.of_nat N)%Z eqn:HN,
    (- Z.of_nat N <=? k)%Z eqn:HmN, (k <? 0)%Z eqn:Hneg;
    simpl; try reflexivity; lia.
Qed.

Lemma process_expense_paid_length (N : nat) e
  (paid share paid' share' : list Q) :
  process_expense N (paid, share) e = Ok (paid', share') ->
  length paid' = length paid.
Proof.
  unfold process_expense.
  destruct (add_at paid (paid_by e) (amount e)) as [paid1|x] eqn:Hadd;
    [|discriminate].
  apply add_at_length in Hadd. cbn [bind].
  repeat (destruct (decide _); [
    match goal with
    | |- context [bind ?m _] => destruct m; [|discriminate]
    end; cbn [bind]; intros H; injection H as <- <-; exact Hadd |]).
  intros H. injection H as <- <-. exact Hadd.
Qed.

(** What the code does with a payer index outside the list: the loop
    stops with an exception, at that expense at the latest; nothing
    checks the expenses before the loop starts. *)
Lemma payer_outside_raises (N : nat) (es1 es2 : list expense) e :
  (Z.of_nat N <= paid_by e \/ paid_by e < - Z.of_nat N)%Z ->
  exists x, compute_shares N (es1 ++ e :: es2) = Raise x.
Proof.
  intros Hout. unfold compute_shares.
  assert (Hgen : forall paid share, length paid = N ->
            exists x, for_each (process_expense N) (es1 ++ e :: es2)
                        (paid, share) = Raise x).
  { induction es1 as [|e1 es1 IH]; intros paid share Hlen.
    - cbn [app for_each]. unfold process_expense, add_at.
      rewrite Hlen, (py_index_outside N _ Hout). eauto.
    - cbn [app for_each].
      destruct (process_expense N (paid, share) e1) as [[paid1 share1]|x]
        eqn:He1; [|eauto].
      cbn [bind]. apply IH.
      rewrite (process_expense_paid_length _ _ _ _ _ _ He1). exact Hlen. }
  apply Hgen, length_replicate.
Qed.


(** ** The indices an expense reads *)

Lemma py_index_raise N k x : py_index N k = Raise x -> x = IndexError.
Proof.
  unfold py_index. repeat (destruct (_ && _)%bool; [discriminate|]).
  congruence.
Qed.

Lemma add_at_raise (l : list Q) k v x :
  add_at l k v = Raise x -> x = IndexError.
Proof.
  unfold add_at. destruct (py_index (length l) k) as [n|y] eqn:Hk.
  - cbn [bind]. destruct (l !! n); [discriminate | congruence].
  - cbn [bind]. intros H. injection H as <-. eapply py_index_raise, Hk.
Qed.

Lemma add_at_outside (l : list Q) k v :
  outside (length l) k -> add_at l k v = Raise IndexError.
Proof.
  intros Hk. unfold add_at. rewrite (py_index_outside _ _ Hk). reflexivity.
Qed.

(** A loop of additions [l[k] += v] keeps the length, raises nothing but
    [IndexError], and ends without exception only if all its indices
    are inside. *)
Lemma additions_cases (us : list (Z * Q)) (l : list Q) :
  match for_each (fun l (u : Z * Q) => add_at l u.1 u.2) us l with
  | Ok l' =>
      length l' = length l
      /\ Forall (fun k => ~ outside (length l) k) us.*1
  | Raise x => x = IndexError
  end.
Proof.
  revert l. induction us as [|u us IH]; intros l; cbn [for_each].
  - split; [reflexivity | constructor].
  - destruct (add_at l u.1 u.2) as [l1|x] eqn:Hu; cbn [bind];
      [|eapply add_at_raise, Hu].
    specialize (IH l1). rewrite (add_at_length _ _ _ _ Hu) in IH.
    destruct (for_each _ us l1) as [l'|x]; [|exact IH].
    destruct IH as [Hlen Hin]. split; [exact Hlen|].
    rewrite fmap_cons. constructor; [|exact Hin].
    intros Hout. rewrite (add_at_outside _ _ _ Hout) in Hu. discriminate.
Qed.

Lemma for_each_fmap {A B S : Type} (f : A -> B) (body : S -> B -> result S)
  (xs : list A) (s : S) :
  for_each body (f <$> xs) s = for_each (fun s x => body s (f x)) xs s.
Proof.
  revert s. induction xs as [|x xs IH]; intros s; [reflexivity|].
  rewrite fmap_cons. cbn [for_each]. destruct (body s (f x)); [apply IH|].
  reflexivity.
Qed.

(** With at least one participant the divisor of the equal split is not
    zero, and the split is its loop of additions. *)
Lemma split_equally_updates (N : nat) e (l : list Q) :
  (0 < N)%nat ->
  split_equally N e (amount e) l
  = for_each (fun l (u : Z * Q) => add_at l u.1 u.2) (equal_updates N e) l.
Proof.
  intros HN. unfold split_equally, equal_updates.
  fold (equal_divisor N e). fold (of_nat (equal_divisor N e)).
  assert (Hk : (0 < equal_divisor N e)%nat).
  { unfold equal_divisor. destruct (length (included e)); simpl; lia. }
  pose proof (of_nat_pos _ Hk).
  rewrite py_div_ok by lra. cbn [bind]. rewrite for_each_fmap. reflexivity.
Qed.

Lemma split_by_weights_updates e (l : list Q) :
  uses_weights e = true ->
  split_by_weights (custom_shares e) (total_pct_of e) (amount e) l
  = for_each (fun l (u : Z * Q) => add_at l u.1 u.2) (weight_updates e) l.
Proof.
  unfold uses_weights, weight_updates. intros Hw.
  assert (Hnz : ~ total_pct_of e == 0).
  { destruct (custom_shares e); [discriminate|].
    apply negb_true_iff in Hw. intros Hz. apply isclose_zero in Hz.
    congruence. }
  rewrite for_each_fmap. unfold split_by_weights.
  generalize (custom_shares e). intros shares. revert l.
  induction shares as [|[idx pct] shares IH]; intros l; [reflexivity|].
  cbn [for_each fst snd]. rewrite py_div_ok by exact Hnz. cbn [bind].
  destruct (add_at l idx _); [apply IH | reflexivity].
Qed.

Lemma split_custom_updates (N : nat) e (l : list Q) :
  (0 < N)%nat ->
  split_custom N e (amount e) l
  = for_each (fun l (u : Z * Q) => add_at l u.1 u.2)
      (if uses_weights e then weight_updates e else equal_updates N e) l.
Proof.
  intros HN. destruct (uses_weights e) eqn:Hw.
  - rewrite <- split_by_weights_updates by exact Hw.
    unfold split_custom, uses_weights, total_pct_of in *.
    destruct (custom_shares e); [discriminate|].
    apply negb_true_iff in Hw. rewrite Hw. reflexivity.
  - rewrite <- split_equally_updates by exact HN.
    unfold split_custom, uses_weights, total_pct_of in *.
    destruct (custom_shares e); [reflexivity|].
    apply negb_false_iff in Hw. rewrite Hw. reflexivity.
Qed.

(** The body of the loop over the expenses, as additions. *)
Lemma process_expense_updates (N : nat) e (paid share : list Q) :
  (0 < N)%nat ->
  process_expense N (paid, share) e
  = (let* paid' := add_at paid (paid_by e) (amount e) in
     let* share' :=
       for_each (fun l (u : Z * Q) => add_at l u.1 u.2)
         (share_updates N e) share in
     Ok (paid', share')).
Proof.
  intros HN. unfold process_expense, share_updates.
  destruct (add_at paid (paid_by e) (amount e)) as [paid'|x];
    [|reflexivity].
  cbn [bind].
  destruct (decide (split_mode e = "equal")).
  { rewrite split_equally_updates by exact HN. reflexivity. }
  destruct (decide (split_mode e = "custom %")).
  { rewrite split_custom_updates by exact HN. reflexivity. }
  destruct (decide (split_mode e = "specific persons")).
  { rewrite split_equally_updates by exact HN. reflexivity. }
  reflexivity.
Qed.

Lemma share_updates_indices (N : nat) e :
  (share_updates N e).*1 = share_indices e.
Proof.
  unfold share_updates, share_indices, equal_updates, weight_updates,
    Dict.keys.
  repeat destruct (decide _); try destruct (uses_weights e);
    rewrite <- ?list_fmap_compose; try reflexivity;
    apply list_fmap_id.
Qed.

(** One expense of the loop: the lengths stay, the only exception is
    [IndexError], and the expense passes only if every index it reads
    is inside. *)
Lemma process_expense_cases (N : nat) e (paid share : list Q) :
  (0 < N)%nat -> length paid = N -> length share = N ->
  match process_expense N (paid, share) e with
  | Ok (paid', share') =>
      length paid' = N /\ length share' = N
      /\ Forall (fun k => ~ outside N k) (indices_read e)
  | Raise x => x = IndexError
  end.
Proof.
  intros HN Hlp Hls. rewrite process_expense_updates by exact HN.
  unfold indices_read.
  destruct (add_at paid (paid_by e) (amount e)) as [paid'|x] eqn:Hp;
    cbn [bind]; [|eapply add_at_raise, Hp].
  assert (Hpay : ~ outside N (paid_by e)).
  { intros Hout. rewrite <- Hlp in Hout.
    rewrite (add_at_outside _ _ _ Hout) in Hp. discriminate. }
  apply add_at_length in Hp. rewrite Hlp in Hp.
  pose proof (additions_cases (share_updates N e) share) as Hs.
  destruct (for_each _ (share_updates N e) share) as [share'|x];
    cbn [bind]; [|exact Hs].
  destruct Hs as [Hlen Hin]. rewrite Hls in Hlen, Hin.
  rewrite share_updates_indices in Hin.
  split; [exact Hp|]. split; [exact Hlen|]. constructor; assumption.
Qed.



(** ** The scenarios of the specification *)

Lemma sort_stable_example :
  sort_asc [("a", 2); ("b", 1); ("c", 2); ("d", 1)]
  = [("b", 1); ("d", 1); ("a", 2); ("c", 2)]
  /\ sort_desc [("a", 2); ("b", 1); ("c", 2); ("d", 1)]
     = [("a", 2); ("c", 2); ("b", 1); ("d", 1)].
Proof. split; reflexivity. Qed.

(** Three people, 300 paid by A and split equally. *)
Example equal_split_scenario :
  let st := add_expense
              (SessionState
                 [Person "A" "" ""; Person "B" "" ""; Person "C" "" ""] [])
              "Dinner" 300 0 "equal" None None in
  exists sm ts,
    calculate_settlement st (Settings "No Tip" 0 0) = Ok (Some sm)
    /\ same_amounts (per_share sm) [100; 100; 100]
    /\ same_balances (net_balances sm) [("A", 200); ("B", -100); ("C", -100)]
    /\ minimize_transactions (net_balances sm) = Some ts
    /\ same_transfers ts [("B", "A", 100); ("C", "A", 100)].
Proof.
  intros st. eexists. eexists.
  split; [vm_compute; reflexivity|].
  split; [repeat constructor|].
  split; [repeat constructor|].
  split; [vm_compute; reflexivity|].
  repeat constructor.
Qed.

(** Two people, 200 paid by A with the weights 30 and 70. *)
Example percentage_split_scenario :
  let st := add_expense
              (SessionState [Person "A" "" ""; Person "B" "" ""] [])
              "Hotel" 200 0 "custom %" (Some [(0%Z, 30); (1%Z, 70)]) None in
  exists sm ts,
    calculate_settlement st (Settings "No Tip" 0 0) = Ok (Some sm)
    /\ same_amounts (per_share sm) [60; 140]
    /\ same_balances (net_balances sm) [("A", 140); ("B", -140)]
    /\ minimize_transactions (net_balances sm) = Some ts
    /\ same_transfers ts [("B", "A", 140)].
Proof.
  intros st. eexists. eexists.
  split; [vm_compute; reflexivity|].
  split; [repeat constructor|].
  split; [repeat constructor|].
  split; [vm_compute; reflexivity|].
  repeat constructor.
Qed.

(** Base shares of 100 each, a tip of 10 % and a tax of 5 %. *)
Example surcharge_scenario :
  exists share',
    apply_surcharge 2 (Settings "Tip % (applied to total)" 10 5) [100; 100]
    = Ok share'
    /\ same_amounts share' [115; 115].
Proof. eexists. split; [vm_compute; reflexivity | repeat constructor]. Qed.

(** Without expenses the block shows its warning and computes nothing. *)
Example no_expenses_scenario :
  calculate_settlement (SessionState [Person "A" "" ""] [])
    (Settings "No Tip" 0 0)
  = Ok None.
Proof. reflexivity. Qed.

(** The order of the transfers follows the insertion order of the
    dictionary where amounts tie. *)
Example insertion_order_matters :
  minimize_transactions [("B", -1); ("C", -1); ("A", 2)]
  = Some [("B", "A", 1); ("C", "A", 1)]
  /\ minimize_transactions [("C", -1); ("B", -1); ("A", 2)]
     = Some [("C", "A", 1); ("B", "A", 1)].
Proof. split; vm_compute; reflexivity. Qed.

(** * Further properties *)

(** ** What [minimize_transactions] returns *)
















(** ** The order of the transfers *)











(** ** The accumulation loop as two loops of additions *)

Lemma for_each_app {A S : Type} (body : S -> A -> result S)
  (xs ys : list A) (s : S) :
  for_each body (xs ++ ys) s
  = (let* s' := for_each body xs s in for_each body ys s').
Proof.
  revert s. induction xs as [|x xs IH]; intros s; [reflexivity|].
  cbn [app for_each]. destruct (body s x); cbn [bind]; [apply IH|].
  reflexivity.
Qed.

(** Where the loop over the expenses ends without exception, its two
    lists are those of the additions to [per_paid] and of the additions
    to [per_share], each made on its own. *)
Lemma compute_shares_additions (N : nat) es (paid share paid' share' : list Q) :
  (0 < N)%nat ->
  for_each (process_expense N) es (paid, share) = Ok (paid', share') ->
  for_each (fun l (u : Z * Q) => add_at l u.1 u.2) (paid_updates es) paid
  = Ok paid'
  /\ for_each (fun l (u : Z * Q) => add_at l u.1 u.2)
       (all_share_updates N es) share
     = Ok share'.
Proof.
  intros HN. revert paid share.
  induction es as [|e es IH]; intros paid share; cbn [for_each].
  - intros H. injection H as <- <-. split; reflexivity.
  - rewrite process_expense_updates by exact HN.
    unfold paid_updates, all_share_updates.
    rewrite !fmap_cons. cbn [concat for_each fst snd].
    rewrite for_each_app.
    destruct (add_at paid (paid_by e) (amount e)) as [paid1|x];
      [|discriminate].
    cbn [bind].
    destruct (for_each _ (share_updates N e) share) as [share1|x];
      [|discriminate].
    cbn [bind]. apply IH.
Qed.

Lemma add_at_lookup (l l' : list Q) k v n x :
  in_range (length l) k -> add_at l k v = Ok l' -> l !! n = Some x ->
  l' !! n = Some (if decide (k = Z.of_nat n) then x + v else x).
Proof.
  intros Hk. unfold add_at.
  destruct (py_index_in_range _ _ Hk) as [-> Hlt]. cbn [bind].
  destruct (l !! Z.to_nat k) as [y|] eqn:Hy; [|discriminate].
  intros H Hn. injection H as <-. unfold in_range in Hk.
  destruct (decide (k = Z.of_nat n)) as [->|Hne].
  - rewrite Nat2Z.id in *. rewrite list_lookup_insert_eq by exact Hlt.
    congruence.
  - rewrite list_lookup_insert_ne by lia. exact Hn.
Qed.

Lemma added_at_cons u us n :
  added_at (u :: us) n
  = (if decide (u.1 = Z.of_nat n) then u.2 + added_at us n
     else added_at us n).
Proof.
  unfold added_at. rewrite filter_cons.
  destruct (decide (u.1 = Z.of_nat n)); reflexivity.
Qed.

Lemma added_at_app us vs n :
  added_at (us ++ vs) n == added_at us n + added_at vs n.
Proof.
  unfold added_at. rewrite filter_app, fmap_app. apply total_app.
Qed.

(** A loop of additions inside the list adds, at every position, what
    its additions for that position add up to. *)
Lemma additions_lookup (us : list (Z * Q)) (l l' : list Q) n x :
  Forall (in_range (length l)) us.*1 ->
  for_each (fun l (u : Z * Q) => add_at l u.1 u.2) us l = Ok l' ->
  l !! n = Some x ->
  exists x', l' !! n = Some x' /\ x' == x + added_at us n.
Proof.
  revert l x. induction us as [|u us IH]; intros l x Hin Hrun Hn.
  - injection Hrun as <-. exists x. split; [exact Hn|].
    change (x == x + 0). ring.
  - rewrite fmap_cons in Hin. apply Forall_cons in Hin as [Hu Hin].
    cbn [for_each] in Hrun.
    destruct (add_at l u.1 u.2) as [l1|y] eqn:Hadd; [|discriminate].
    cbn [bind] in Hrun.
    pose proof (add_at_lookup _ _ _ _ _ _ Hu Hadd Hn) as Hn1.
    rewrite <- (add_at_length _ _ _ _ Hadd) in Hin.
    destruct (IH l1 _ Hin Hrun Hn1) as (x' & Hx' & Heq).
    exists x'. split; [exact Hx'|]. rewrite Heq, added_at_cons.
    destruct (decide (u.1 = Z.of_nat n)); ring.
Qed.

Lemma share_updates_in_range (N : nat) e :
  wf_expense N e -> Forall (in_range N) (share_updates N e).*1.
Proof.
  intros [_ Hinc Hsh _ _]. rewrite share_updates_indices.
  unfold share_indices.
  repeat destruct (decide _); try destruct (uses_weights e);
    auto; constructor.
Qed.

Lemma all_share_updates_in_range (N : nat) es :
  Forall (wf_expense N) es -> Forall (in_range N) (all_share_updates N es).*1.
Proof.
  unfold all_share_updates. induction 1 as [|e es He _ IH]; [constructor|].
  rewrite fmap_cons. cbn [concat]. rewrite fmap_app.
  apply Forall_app. split; [apply share_updates_in_range, He | exact IH].
Qed.

Lemma paid_updates_in_range (N : nat) es :
  Forall (wf_expense N) es -> Forall (in_range N) (paid_updates es).*1.
Proof.
  unfold paid_updates. induction 1 as [|e es He _ IH]; [constructor|].
  rewrite !fmap_cons. constructor; [apply (wf_payer _ _ He) | exact IH].
Qed.

Lemma added_at_paid_updates es n :
  added_at (paid_updates es) n
  == total (amount <$> filter (fun e => paid_by e = Z.of_nat n) es).
Proof.
  unfold paid_updates. induction es as [|e es IH]; [reflexivity|].
  rewrite fmap_cons, added_at_cons, filter_cons. cbn [fst snd].
  destruct (decide (paid_by e = Z.of_nat n)).
  - rewrite fmap_cons, total_cons, IH. reflexivity.
  - exact IH.
Qed.

(** X6: for well-formed expenses the accumulation loop returns, for
    each participant, the sum of the amounts of the expenses that name
    the participant as payer. *)
Theorem paid_per_person (N : nat) (es : list expense) :
  Forall (wf_expense N) es ->
  exists paid share,
    compute_shares N es = Ok (paid, share)
    /\ length paid = N
    /\ (forall n, (n < N)%nat ->
          exists x,
            paid !! n = Some x
            /\ x == total (amount <$>
                             filter (fun e => paid_by e = Z.of_nat n) es)).
Proof.
  intros Hwf. unfold compute_shares.
  destruct (for_each_process_conserves N es (replicate N 0) (replicate N 0)
              Hwf (length_replicate _ _) (length_replicate _ _))
    as (paid & share & Hrun & Hlp & Hls & _ & _).
  exists paid, share. split; [exact Hrun|]. split; [exact Hlp|].
  intros n Hn.
  assert (HN : (0 < N)%nat) by lia.
  destruct (compute_shares_additions N es _ _ _ _ HN Hrun) as [Hp _].
  destruct (additions_lookup (paid_updates es) (replicate N 0) paid n 0)
    as (x & Hx & Hxe); auto.
  { rewrite length_replicate. apply paid_updates_in_range, Hwf. }
  { apply lookup_replicate_2, Hn. }
  exists x. split; [exact Hx|].
  rewrite Hxe, added_at_paid_updates. ring.
Qed.

Lemma paid_per_person_witness :
  let es :=
    [Expense "Dinner" 300 0 "equal" [] [0; 1; 2]%Z;
     Expense "Fuel" 90 1 "custom %" [] [0; 1; 2]%Z;
     Expense "Taxi" 40 0 "specific persons" [] [1; 2]%Z] in
  Forall (wf_expense 3) es
  /\ exists paid share,
       compute_shares 3 es = Ok (paid, share)
       /\ length paid = 3%nat
       /\ (forall n, (n < 3)%nat ->
             exists x,
               paid !! n = Some x
               /\ x == total (amount <$>
                                filter (fun e => paid_by e = Z.of_nat n) es)).
Proof.
  intros es.
  assert (Hwf : Forall (wf_expense 3) es).
  { repeat constructor; simpl; unfold in_range; simpl; try lia;
      try discriminate; apply (bool_decide_unpack _); vm_compute; exact I. }
  split; [exact Hwf|]. apply (paid_per_person 3 es Hwf).
Defined.

(** One well-formed expense, as its additions to the shares. *)
Lemma process_expense_share_lookup (N : nat) e (paid share : list Q) n y :
  wf_expense N e -> length paid = N -> length share = N ->
  share !! n = Some y ->
  exists paid' share' y',
    process_expense N (paid, share) e = Ok (paid', share')
    /\ share' !! n = Some y'
    /\ y' == y + added_at (share_updates N e) n.
Proof.
  intros Hwf Hlp Hls Hn.
  destruct (process_expense_conserves N e paid share Hwf Hlp Hls)
    as (paid' & share' & Hrun & _).
  assert (HN : (0 < N)%nat).
  { apply lookup_lt_Some in Hn. lia. }
  pose proof Hrun as Hrun'.
  rewrite process_expense_updates in Hrun' by exact HN.
  destruct (add_at paid (paid_by e) (amount e)) as [paid1|x];
    [|discriminate].
  cbn [bind] in Hrun'.
  destruct (for_each _ (share_updates N e) share) as [share1|x] eqn:Hs;
    [|discriminate].
  injection Hrun' as <- <-.
  destruct (additions_lookup (share_updates N e) share share1 n y)
    as (y' & Hy' & Heq); auto.
  { rewrite Hls. apply share_updates_in_range, Hwf. }
  exists paid1, share1, y'. auto.
Qed.

Lemma added_at_equal_updates (N : nat) e n :
  added_at (equal_updates N e) n
  == of_nat (length (filter (fun p => p = Z.of_nat n) (included e)))
     * (amount e / of_nat (equal_divisor N e)).
Proof.
  unfold equal_updates. induction (included e) as [|p ps IH].
  - change (0 == 0 * (amount e / of_nat (equal_divisor N e))). ring.
  - rewrite fmap_cons, added_at_cons, filter_cons. cbn [fst snd].
    destruct (decide (p = Z.of_nat n)).
    + simpl length. rewrite of_nat_S, IH. ring.
    + exact IH.
Qed.

(** X7: an expense split equally, or among specific persons, adds
    [amount / k] to the share of a participant for each occurrence of
    the participant in [included], [k] being the length of [included];
    a participant who is not included keeps the share. *)
Theorem equal_split_per_person (N : nat) (e : expense) (paid share : list Q)
  (n : nat) (y : Q) :
  wf_expense N e ->
  split_mode e = "equal" \/ split_mode e = "specific persons" ->
  length paid = N -> length share = N ->
  share !! n = Some y ->
  exists paid' share' y',
    process_expense N (paid, share) e = Ok (paid', share')
    /\ share' !! n = Some y'
    /\ y' == y + of_nat (length (filter (fun p => p = Z.of_nat n)
                                   (included e)))
                 * (amount e / of_nat (length (included e))).
Proof.
  intros Hwf Hmode Hlp Hls Hn.
  destruct (process_expense_share_lookup N e paid share n y Hwf Hlp Hls Hn)
    as (paid' & share' & y' & Hrun & Hy' & Heq).
  exists paid', share', y'. split; [exact Hrun|]. split; [exact Hy'|].
  rewrite Heq.
  assert (Hup : share_updates N e = equal_updates N e).
  { unfold share_updates. destruct Hmode as [-> | ->]; reflexivity. }
  assert (Hk : equal_divisor N e = length (included e)).
  { unfold equal_divisor. pose proof (wf_nonempty _ _ Hwf).
    destruct (included e); [congruence | reflexivity]. }
  rewrite Hup, added_at_equal_updates, Hk. reflexivity.
Qed.

Lemma equal_split_per_person_witness :
  let e := Expense "Taxi" 40 0 "specific persons" [] [1; 2]%Z in
  exists paid' share' y',
    process_expense 3 ([0; 0; 0], [10; 20; 30]) e = Ok (paid', share')
    /\ share' !! 1%nat = Some y'
    /\ y' == 20 + of_nat (length (filter (fun p => p = Z.of_nat 1)
                                    (included e)))
                  * (amount e / of_nat (length (included e))).
Proof.
  intros e.
  apply (equal_split_per_person 3 e [0; 0; 0] [10; 20; 30] 1 20).
  - repeat constructor; simpl; unfold in_range; simpl; try lia;
      try discriminate; apply (bool_decide_unpack _); vm_compute; exact I.
  - right. reflexivity.
  - reflexivity.
  - reflexivity.
  - reflexivity.
Defined.

Lemma uses_weights_true e :
  ~ total (Dict.values (custom_shares e)) == 0 ->
  uses_weights e = true
  /\ total_pct_of e = Num.sum (Dict.values (custom_shares e)).
Proof.
  intros Hnz. unfold uses_weights, total_pct_of.
  assert (Hs : Num.eqb (Num.sum (Dict.values (custom_shares e))) 0 = false).
  { apply eqb_false. rewrite sum_total. exact Hnz. }
  rewrite Hs. split; [|reflexivity].
  destruct (custom_shares e) as [|item shares] eqn:Hsh.
  { exfalso. apply Hnz. reflexivity. }
  apply negb_true_iff. destruct (Num.isclose _ 0) eqn:Hc; [|reflexivity].
  apply isclose_zero in Hc. apply eqb_false in Hs. contradiction.
Qed.

Lemma added_at_weights (shares : Dict.t Z Q) (f : Q -> Q) n :
  Dict.wf shares ->
  added_at ((fun item : Z * Q => (item.1, f item.2)) <$> shares) n
  == match Dict.get shares (Z.of_nat n) with
     | Some w => f w
     | None => 0
     end.
Proof.
  unfold Dict.wf, Dict.keys. induction shares as [|[idx w] shares IH];
    intros Hwf; [reflexivity|].
  rewrite fmap_cons in Hwf. apply NoDup_cons in Hwf as [Hidx Hwf].
  rewrite fmap_cons, added_at_cons. cbn [fst snd Dict.get].
  destruct (decide (idx = Z.of_nat n)) as [->|Hne].
  - rewrite (IH Hwf).
    assert (Hnone : Dict.get shares (Z.of_nat n) = None).
    { clear IH Hwf. induction shares as [|[k v] shares IH]; [reflexivity|].
      rewrite fmap_cons in Hidx. apply not_elem_of_cons in Hidx as [Hk Hidx].
      cbn [Dict.get]. rewrite decide_False by (simpl in Hk; congruence).
      apply IH, Hidx. }
    rewrite Hnone. ring.
  - apply IH, Hwf.
Qed.

(** X8: a percentage expense whose weights do not sum to zero adds
    [amount * (weight / total)] to the share of each participant who has
    a weight and nothing to the share of a participant who has none;
    [included] plays no part. *)
Theorem percentage_split_per_person (N : nat) (e : expense)
  (paid share : list Q) (n : nat) (y : Q) :
  wf_expense N e ->
  split_mode e = "custom %" ->
  Dict.wf (custom_shares e) ->
  ~ total (Dict.values (custom_shares e)) == 0 ->
  length paid = N -> length share = N ->
  share !! n = Some y ->
  exists paid' share' y',
    process_expense N (paid, share) e = Ok (paid', share')
    /\ share' !! n = Some y'
    /\ y' == y + match Dict.get (custom_shares e) (Z.of_nat n) with
                 | Some w =>
                     amount e * (w / total (Dict.values (custom_shares e)))
                 | None => 0
                 end.
Proof.
  intros Hwf Hmode Hdict Hnz Hlp Hls Hn.
  destruct (process_expense_share_lookup N e paid share n y Hwf Hlp Hls Hn)
    as (paid' & share' & y' & Hrun & Hy' & Heq).
  exists paid', share', y'. split; [exact Hrun|]. split; [exact Hy'|].
  rewrite Heq. destruct (uses_weights_true e Hnz) as [Hw Ht].
  assert (Hup : share_updates N e = weight_updates e).
  { unfold share_updates.
    rewrite Hmode, decide_False, decide_True by (reflexivity || discriminate).
    rewrite Hw. reflexivity. }
  rewrite Hup. unfold weight_updates.
  rewrite (added_at_weights (custom_shares e)
             (fun w => amount e * (w / total_pct_of e)) n Hdict).
  rewrite Ht. destruct (Dict.get (custom_shares e) (Z.of_nat n)) as [w|];
    [|reflexivity].
  rewrite sum_total. reflexivity.
Qed.

Lemma percentage_split_per_person_witness :
  let e := Expense "Hotel" 200 0 "custom %" [(0%Z, 30); (1%Z, 70)]
             [0; 1; 2]%Z in
  exists paid' share' y',
    process_expense 3 ([0; 0; 0], [0; 0; 0]) e = Ok (paid', share')
    /\ share' !! 2%nat = Some y'
    /\ y' == 0 + match Dict.get (custom_shares e) (Z.of_nat 2) with
                 | Some w =>
                     amount e * (w / total (Dict.values (custom_shares e)))
                 | None => 0
                 end.
Proof.
  intros e.
  apply (percentage_split_per_person 3 e [0; 0; 0] [0; 0; 0] 2 0).
  - repeat constructor; simpl; unfold in_range; simpl; try lia;
      try discriminate; apply (bool_decide_unpack _); vm_compute; exact I.
  - reflexivity.
  - apply (bool_decide_unpack _). vm_compute. exact I.
  - vm_compute. discriminate.
  - reflexivity.
  - reflexivity.
  - reflexivity.
Defined.

(** X9: a percentage expense that has no weights, or whose weights sum
    to exactly zero, is processed as an equal expense among [included]:
    the weights are not read.  Only an exact zero counts, since
    [isclose] is called with a relative tolerance alone. *)
Theorem percentage_split_falls_back (N : nat) (e : expense)
  (acc : list Q * list Q) :
  split_mode e = "custom %" ->
  custom_shares e = [] \/ total (Dict.values (custom_shares e)) == 0 ->
  process_expense N acc e
  = process_expense N acc
      (Expense (desc e) (amount e) (paid_by e) "equal" (custom_shares e)
         (included e)).
Proof.
  intros Hmode Hzero. destruct acc as [paid share].
  rewrite (process_expense_custom N e paid share Hmode).
  rewrite process_expense_equal by reflexivity.
  cbn [amount paid_by].
  rewrite (split_custom_fallback N e (amount e) share Hzero). reflexivity.
Qed.

Lemma percentage_split_falls_back_witness :
  let e := Expense "Fuel" 90 1 "custom %" [(0%Z, 50); (2%Z, -50)] [0; 1]%Z in
  process_expense 3 ([0; 0; 0], [0; 0; 0]) e
  = process_expense 3 ([0; 0; 0], [0; 0; 0])
      (Expense (desc e) (amount e) (paid_by e) "equal" (custom_shares e)
         (included e)).
Proof.
  intros e. apply (percentage_split_falls_back 3 e ([0; 0; 0], [0; 0; 0])).
  - reflexivity.
  - right. vm_compute. reflexivity.
Defined.

(** ** The balances of the settlement block *)

Lemma get_at_middle {A : Type} (pre post : list A) x :
  get_at (pre ++ x :: post) (Z.of_nat (length pre)) = Ok x.
Proof.
  unfold get_at. rewrite py_index_of_nat.
  - cbn [bind]. rewrite list_lookup_middle by reflexivity. reflexivity.
  - rewrite length_app. simpl. lia.
Qed.

Lemma compute_balances_from (prep : list person) (prex prey : list Q)
  (ps : list person) (xs ys : list Q) (d : balances_t) :
  length prex = length prep -> length prey = length prep ->
  (length ps <= length xs)%nat -> (length ps <= length ys)%nat ->
  for_each
    (fun balances k =>
       let* paid := get_at (prex ++ xs) k in
       let* share := get_at (prey ++ ys) k in
       let* p := get_at (prep ++ ps) k in
       Ok (Dict.set balances (name p) (paid - share)))
    (Z.of_nat <$> seq (length prep) (length ps)) d
  = Ok (fold_left set_item (balance_items ps xs ys) d).
Proof.
  revert prep prex prey xs ys d.
  induction ps as [|p ps IH]; intros prep prex prey xs ys d Hx Hy Hlx Hly.
  - reflexivity.
  - destruct xs as [|x xs]; [simpl in Hlx; lia|].
    destruct ys as [|y ys]; [simpl in Hly; lia|].
    simpl length. cbn [seq fmap list_fmap for_each].
    rewrite <- Hx at 1. rewrite get_at_middle. cbn [bind].
    rewrite <- Hy at 1. rewrite get_at_middle. cbn [bind].
    rewrite get_at_middle. cbn [bind].
    specialize (IH (prep ++ [p]) (prex ++ [x]) (prey ++ [y]) xs ys
                  (Dict.set d (name p) (x - y))).
    rewrite !length_app, <- !app_assoc in IH. simpl in IH.
    rewrite !Nat.add_1_r in IH. simpl in Hlx, Hly.
    rewrite IH by lia. reflexivity.
Qed.

(** The loop of lines 433 to 436 makes the assignments of
    [balance_items], one for each person. *)
Lemma compute_balances_spec (people : list person) (paid share : list Q) :
  (length people <= length paid)%nat ->
  (length people <= length share)%nat ->
  compute_balances people paid share
  = Ok (dict_of_items (balance_items people paid share)).
Proof.
  intros Hp Hs. apply (compute_balances_from [] [] [] people paid share []);
    auto.
Qed.

Lemma dict_get_set (d : balances_t) k v k' :
  Dict.get (Dict.set d k v) k'
  = if decide (k = k') then Some v else Dict.get d k'.
Proof.
  induction d as [|[k0 v0] d IH]; simpl.
  - destruct (decide (k = k')); reflexivity.
  - destruct (decide (k0 = k)) as [->|Hne]; simpl.
    + destruct (decide (k = k')); reflexivity.
    + destruct (decide (k0 = k')) as [->|Hne'].
      * rewrite decide_False by congruence. reflexivity.
      * exact IH.
Qed.

Lemma dict_set_fresh (d : balances_t) k v :
  k ∉ Dict.keys d -> Dict.set d k v = d ++ [(k, v)].
Proof.
  unfold Dict.keys. induction d as [|[k0 v0] d IH]; intros Hk; [reflexivity|].
  rewrite fmap_cons in Hk. apply not_elem_of_cons in Hk as [Hne Hk].
  simpl in *. rewrite decide_False by congruence. rewrite (IH Hk).
  reflexivity.
Qed.

Lemma dict_set_keys (d : balances_t) k v :
  Dict.keys (Dict.set d k v)
  = if decide (k ∈ Dict.keys d) then Dict.keys d else Dict.keys d ++ [k].
Proof.
  destruct (decide (k ∈ Dict.keys d)) as [Hin|Hnin].
  - unfold Dict.keys in *. induction d as [|[k0 v0] d IH].
    + inversion Hin.
    + simpl. destruct (decide (k0 = k)) as [->|Hne]; [reflexivity|].
      rewrite fmap_cons in Hin. cbn [fst] in Hin.
      apply elem_of_cons in Hin as [->|Hin]; [congruence|].
      rewrite !fmap_cons, (IH Hin). reflexivity.
  - rewrite (dict_set_fresh d k v Hnin). unfold Dict.keys.
    rewrite fmap_app. reflexivity.
Qed.

Lemma dict_set_wf (d : balances_t) k v : Dict.wf d -> Dict.wf (Dict.set d k v).
Proof.
  unfold Dict.wf. rewrite dict_set_keys.
  destruct (decide (k ∈ Dict.keys d)); [auto|].
  intros Hwf. apply NoDup_app. split; [exact Hwf|]. split.
  - intros x Hx Hk. apply list_elem_of_singleton in Hk. congruence.
  - apply NoDup_singleton.
Qed.

Lemma fold_set_item_wf items (d : balances_t) :
  Dict.wf d -> Dict.wf (fold_left set_item items d).
Proof.
  revert d. induction items as [|it items IH]; intros d Hwf; [exact Hwf|].
  simpl. apply IH. apply dict_set_wf, Hwf.
Qed.

Lemma fold_set_item_keys items (d : balances_t) k :
  k ∈ Dict.keys (fold_left set_item items d)
  <-> k ∈ Dict.keys d \/ k ∈ items.*1.
Proof.
  revert d. induction items as [|it items IH]; intros d.
  - simpl. split; [auto | intros [H|H]; [exact H | inversion H]].
  - cbn [fold_left]. rewrite IH. unfold set_item at 1.
    rewrite dict_set_keys, fmap_cons, elem_of_cons.
    destruct (decide (it.1 ∈ Dict.keys d)) as [Hin|Hnin].
    + split; [tauto|]. intros [H|[->|H]]; auto.
    + rewrite elem_of_app, list_elem_of_singleton. tauto.
Qed.

Lemma fold_set_item_get_other items (d : balances_t) k :
  k ∉ items.*1 ->
  Dict.get (fold_left set_item items d) k = Dict.get d k.
Proof.
  revert d. induction items as [|it items IH]; intros d Hk; [reflexivity|].
  rewrite fmap_cons in Hk. apply not_elem_of_cons in Hk as [Hne Hk].
  cbn [fold_left]. rewrite (IH _ Hk). unfold set_item.
  rewrite dict_get_set. rewrite decide_False by congruence. reflexivity.
Qed.


Lemma balance_items_names (people : list person) (paid share : list Q) :
  (length people <= length paid)%nat ->
  (length people <= length share)%nat ->
  (balance_items people paid share).*1 = name <$> people.
Proof.
  unfold balance_items. revert paid share.
  induction people as [|p ps IH]; intros paid share Hp Hs; [reflexivity|].
  destruct paid as [|x xs]; [simpl in Hp; lia|].
  destruct share as [|y ys]; [simpl in Hs; lia|].
  simpl in *. f_equal. apply IH; lia.
Qed.


(** ** The settlement block as a whole *)

Lemma for_each_process_lengths (N : nat) es (paid share paid' share' : list Q) :
  (0 < N)%nat -> length paid = N -> length share = N ->
  for_each (process_expense N) es (paid, share) = Ok (paid', share') ->
  length paid' = N /\ length share' = N.
Proof.
  intros HN. revert paid share.
  induction es as [|e es IH]; intros paid share Hlp Hls; cbn [for_each].
  - intros H. injection H as <- <-. auto.
  - pose proof (process_expense_cases N e paid share HN Hlp Hls) as Hc.
    destruct (process_expense N (paid, share) e) as [[paid1 share1]|x];
      [|discriminate].
    cbn [bind]. destruct Hc as (Hlp1 & Hls1 & _). apply IH; assumption.
Qed.

Lemma allocate_one_length total_base surcharge (l l' : list Q) k :
  allocate_one total_base surcharge l k = Ok l' -> length l' = length l.
Proof.
  unfold allocate_one. destruct (py_index (length l) k); [|discriminate].
  cbn [bind]. destruct (l !! _); [|discriminate].
  destruct (py_div _ total_base); [|discriminate]. cbn [bind].
  apply add_at_length.
Qed.

Lemma allocate_all_length total_base surcharge ks (l l' : list Q) :
  for_each (allocate_one total_base surcharge) ks l = Ok l' ->
  length l' = length l.
Proof.
  revert l. induction ks as [|k ks IH]; intros l; cbn [for_each].
  - intros H. injection H as <-. reflexivity.
  - destruct (allocate_one _ _ l k) as [l1|x] eqn:Hk; [|discriminate].
    cbn [bind]. intros H. rewrite (IH _ H).
    eapply allocate_one_length, Hk.
Qed.

Lemma apply_surcharge_length (N : nat) cfg (l l' : list Q) :
  apply_surcharge N cfg l = Ok l' -> length l' = length l.
Proof.
  unfold apply_surcharge. destruct (Num.ltb 0 (Num.sum l)).
  - apply allocate_all_length.
  - intros H. injection H as <-. reflexivity.
Qed.

(** The allocation of tip and tax, by the sign of the base total. *)
Lemma apply_surcharge_cases cfg (l : list Q) :
  apply_surcharge (length l) cfg l
  = Ok (if Num.ltb 0 (Num.sum l) then
          (fun x => x + x / Num.sum l
                        * (tip_amount_of cfg (Num.sum l)
                           + tax_amount_of cfg (Num.sum l))) <$> l
        else l).
Proof.
  unfold apply_surcharge. destruct (Num.ltb 0 (Num.sum l)) eqn:Hb;
    [|reflexivity].
  apply ltb_true in Hb. apply for_each_range. intros pre x post.
  apply allocate_one_middle. lra.
Qed.

(** What a settlement that ends without exception has run through. *)
Lemma calculate_settlement_inv st cfg sm :
  calculate_settlement st cfg = Ok (Some sm) ->
  (0 < length (people st))%nat
  /\ exists share,
       compute_shares (length (people st)) (expenses st)
       = Ok (per_paid sm, share)
       /\ apply_surcharge (length (people st)) cfg share = Ok (per_share sm)
       /\ compute_balances (people st) (per_paid sm) (per_share sm)
          = Ok (net_balances sm)
       /\ total_base sm = Num.sum share
       /\ tip_amount sm = tip_amount_of cfg (Num.sum share)
       /\ tax_amount sm = tax_amount_of cfg (Num.sum share)
       /\ grand_total sm = total_base sm + tip_amount sm + tax_amount sm.
Proof.
  unfold calculate_settlement.
  destruct (people st) as [|p ps] eqn:Hp; [discriminate|].
  destruct (expenses st) as [|e es] eqn:He; [discriminate|].
  destruct (compute_shares _ (e :: es)) as [[paid share]|x] eqn:Hcs;
    [|discriminate].
  cbn [bind].
  destruct (apply_surcharge _ cfg share) as [share'|x] eqn:Hsur;
    [|discriminate].
  cbn [bind].
  destruct (compute_balances (p :: ps) paid share') as [d|x] eqn:Hd;
    [|discriminate].
  cbn [bind]. intros H. injection H as <-. cbn.
  split; [lia|]. exists share. repeat split; auto.
Qed.

Lemma calculate_settlement_lengths st cfg sm :
  calculate_settlement st cfg = Ok (Some sm) ->
  length (per_paid sm) = length (people st)
  /\ length (per_share sm) = length (people st).
Proof.
  intros H. apply calculate_settlement_inv in H
    as (HN & share & Hsh & Hsur & _).
  unfold compute_shares in Hsh.
  apply for_each_process_lengths in Hsh as [Hlp Hls];
    auto using length_replicate.
  apply apply_surcharge_length in Hsur. split; congruence.
Qed.

Lemma calculate_settlement_balances st cfg sm :
  calculate_settlement st cfg = Ok (Some sm) ->
  net_balances sm
  = dict_of_items (balance_items (people st) (per_paid sm) (per_share sm)).
Proof.
  intros H. destruct (calculate_settlement_lengths _ _ _ H) as [Hlp Hls].
  apply calculate_settlement_inv in H as (_ & share & _ & _ & Hbal & _).
  rewrite compute_balances_spec in Hbal by lia. congruence.
Qed.

(** X10: whenever the settlement block reaches the call of
    [minimize_transactions], the dictionary it passes has pairwise
    distinct keys, and its keys are the names of the people. *)
Theorem net_balances_keys st cfg sm :
  calculate_settlement st cfg = Ok (Some sm) ->
  Dict.wf (net_balances sm)
  /\ (forall n, n ∈ Dict.keys (net_balances sm) <-> n ∈ name <$> people st).
Proof.
  intros H. rewrite (calculate_settlement_balances _ _ _ H).
  destruct (calculate_settlement_lengths _ _ _ H) as [Hlp Hls].
  unfold dict_of_items. split.
  - apply fold_set_item_wf. constructor.
  - intros n. rewrite fold_set_item_keys, balance_items_names by lia.
    split; [intros [Hn|Hn]; [inversion Hn | exact Hn] | auto].
Qed.

Lemma net_balances_keys_witness :
  let st := add_expense
              (SessionState
                 [Person "A" "" ""; Person "B" "" ""; Person "A" "" ""] [])
              "Dinner" 300 0 "equal" None None in
  exists sm,
    calculate_settlement st (Settings "No Tip" 0 0) = Ok (Some sm)
    /\ Dict.wf (net_balances sm)
    /\ (forall n,
          n ∈ Dict.keys (net_balances sm) <-> n ∈ name <$> people st).
Proof.
  intros st. eexists. split; [vm_compute; reflexivity|].
  apply (net_balances_keys st (Settings "No Tip" 0 0)).
  vm_compute. reflexivity.
Defined.

(** X11: each person's balance is stored under the person's name as paid
    minus share; where several people bear one name, the entry holds the
    balance of the last of them and the balances of the others are not
    in the dictionary. *)
Theorem last_namesake_wins st cfg sm (ps1 ps2 : list person) (p : person) :
  calculate_settlement st cfg = Ok (Some sm) ->
  people st = ps1 ++ p :: ps2 ->
  name p ∉ name <$> ps2 ->
  exists x y,
    per_paid sm !! length ps1 = Some x
    /\ per_share sm !! length ps1 = Some y
    /\ Dict.get (net_balances sm) (name p) = Some (x - y).
Proof.
  intros H Hpeople Hlast.
  rewrite (calculate_settlement_balances _ _ _ H).
  destruct (calculate_settlement_lengths _ _ _ H) as [Hlp Hls].
  rewrite Hpeople in *. rewrite length_app in Hlp, Hls. simpl in Hlp, Hls.
  destruct (lookup_lt_is_Some_2 (per_paid sm) (length ps1)) as [x Hx]; [lia|].
  destruct (lookup_lt_is_Some_2 (per_share sm) (length ps1)) as [y Hy]; [lia|].
  exists x, y. split; [exact Hx|]. split; [exact Hy|].
  rewrite <- (take_drop_middle _ _ _ Hx), <- (take_drop_middle _ _ _ Hy).
  unfold dict_of_items, balance_items.
  assert (Htx : length (take (length ps1) (per_paid sm)) = length ps1)
    by (rewrite length_take; lia).
  assert (Hty : length (take (length ps1) (per_share sm)) = length ps1)
    by (rewrite length_take; lia).
  rewrite zip_with_app by congruence.
  rewrite zip_with_app
    by (rewrite length_zip_with; rewrite Htx, Hty; lia).
  cbn [zip_with]. rewrite fold_left_app. cbn [fold_left].
  rewrite fold_set_item_get_other.
  - unfold set_item. cbn [fst snd]. rewrite dict_get_set.
    rewrite decide_True by reflexivity. reflexivity.
  - fold (balance_items ps2 (drop (S (length ps1)) (per_paid sm))
            (drop (S (length ps1)) (per_share sm))).
    rewrite balance_items_names; [exact Hlast | |]; rewrite length_drop; lia.
Qed.

Lemma last_namesake_wins_witness :
  let st := add_expense
              (SessionState
                 [Person "A" "" ""; Person "B" "" ""; Person "A" "" ""] [])
              "Dinner" 300 0 "equal" None None in
  exists sm x y,
    calculate_settlement st (Settings "No Tip" 0 0) = Ok (Some sm)
    /\ per_paid sm !! 2%nat = Some x
    /\ per_share sm !! 2%nat = Some y
    /\ Dict.get (net_balances sm) "A" = Some (x - y).
Proof.
  intros st. eexists.
  assert (Hrun : calculate_settlement st (Settings "No Tip" 0 0)
                 = Ok (Some ?[sm])) by (vm_compute; reflexivity).
  destruct (last_namesake_wins st (Settings "No Tip" 0 0) _
              [Person "A" "" ""; Person "B" "" ""] [] (Person "A" "" "")
              Hrun eq_refl) as (x & y & Hx & Hy & Hget).
  { intros Hin. inversion Hin. }
  exists x, y. auto.
Defined.



(** ** The session state *)

Lemma in_range_mono N M k : (N <= M)%nat -> in_range N k -> in_range M k.
Proof. unfold in_range. lia. Qed.

Lemma wf_expense_mono N M e :
  (N <= M)%nat -> wf_expense N e -> wf_expense M e.
Proof.
  intros Hle [H1 H2 H3 H4 H5].
  constructor; auto; try (eapply Forall_impl; [eassumption|]);
    eauto using in_range_mono.
Qed.

(** X13: a session built by adding people, submitting the expense form
    and removing expenses holds only well-formed expenses, and its
    settlement never raises: the block shows its warning or reaches the
    call of [minimize_transactions]. *)
Theorem built_session_settles st cfg :
  session_built st ->
  Forall (wf_expense (length (people st))) (expenses st)
  /\ exists r, calculate_settlement st cfg = Ok r.
Proof.
  intros Hb.
  assert (Hwf : Forall (wf_expense (length (people st))) (expenses st)).
  { induction Hb as [| strip st name phone upi _ IH
                     | st desc amt payer mode shares incl _ IH Hp Hpay Hm Hs Hi
                     | st idx st' _ IH Hrm].
    - constructor.
    - simpl. rewrite length_app. simpl.
      eapply Forall_impl; [exact IH|]. intros e. apply wf_expense_mono. lia.
    - destruct (add_expense_wf st desc amt payer mode shares incl
                  Hp Hpay Hi Hs Hm) as (e & -> & He).
      simpl. apply Forall_app. split; [exact IH|]. constructor; [exact He|].
      constructor.
    - unfold remove_expense in Hrm.
      destruct (py_index _ idx) as [k|x]; [|discriminate].
      cbn [bind] in Hrm. injection Hrm as <-. simpl.
      apply Forall_delete, IH. }
  split; [exact Hwf|].
  unfold calculate_settlement.
  destruct (people st) as [|p ps] eqn:Hp; [eauto|].
  destruct (expenses st) as [|e es] eqn:He; [eauto|].
  destruct (for_each_process_conserves _ _ (replicate _ 0) (replicate _ 0)
              Hwf (length_replicate _ _) (length_replicate _ _))
    as (paid & share & Hrun & Hlp & Hls & _).
  unfold compute_shares. rewrite Hrun. cbn [bind].
  pose proof (apply_surcharge_cases cfg share) as Hsur.
  rewrite Hls in Hsur. rewrite Hsur. cbn [bind].
  rewrite compute_balances_spec; [cbn [bind]; eauto | |].
  - rewrite Hlp. reflexivity.
  - destruct (Num.ltb 0 (Num.sum share)); [rewrite length_fmap|];
      rewrite Hls; reflexivity.
Qed.

Lemma built_session_settles_witness :
  let strip := fun s : string => s in
  let st1 := add_person strip (SessionState [] []) "A" "" "" in
  let st2 := add_person strip st1 "B" "" "" in
  let st3 := add_expense st2 "Dinner" 100 1 "specific persons" None
               (Some [0%Z]) in
  let st4 := add_person strip st3 "C" "" "" in
  session_built st4
  /\ Forall (wf_expense (length (people st4))) (expenses st4)
  /\ exists r, calculate_settlement st4 (Settings "No Tip" 0 0) = Ok r.
Proof.
  intros strip st1 st2 st3 st4.
  assert (Hb : session_built st4).
  { apply built_add_person. apply built_add_expense.
    - apply built_add_person, built_add_person, built_reset.
    - discriminate.
    - unfold in_range. simpl. lia.
    - apply (bool_decide_unpack _). vm_compute. exact I.
    - constructor.
    - repeat constructor; unfold in_range; simpl; lia. }
  split; [exact Hb|].
  apply (built_session_settles st4 (Settings "No Tip" 0 0) Hb).
Defined.

(** X14: [remove_person] takes the person at the index out and leaves
    the expenses as they are: an index stored in an expense that is at
    or past the removed one afterwards names the person who followed,
    and the last index names nobody. *)
Theorem remove_person_shifts_references st (k : nat) :
  (k < length (people st))%nat ->
  exists st',
    remove_person st (Z.of_nat k) = Ok st'
    /\ expenses st' = expenses st
    /\ length (people st') = (length (people st) - 1)%nat
    /\ (forall n, (n < k)%nat -> people st' !! n = people st !! n)
    /\ (forall n, (k <= n)%nat -> people st' !! n = people st !! S n).
Proof.
  intros Hk. unfold remove_person. rewrite py_index_of_nat by exact Hk.
  cbn [bind]. eexists. split; [reflexivity|]. cbn [people expenses].
  split; [reflexivity|]. split.
  - rewrite length_delete; [reflexivity|]. apply lookup_lt_is_Some_2, Hk.
  - split; intros n Hn.
    + apply list_lookup_delete_lt, Hn.
    + apply list_lookup_delete_ge, Hn.
Qed.

Lemma remove_person_shifts_references_witness :
  let st := SessionState
              [Person "A" "" ""; Person "B" "" ""; Person "C" "" ""]
              [Expense "Taxi" 30 1 "equal" [] [0; 1; 2]%Z] in
  exists st',
    remove_person st (Z.of_nat 1) = Ok st'
    /\ expenses st' = expenses st
    /\ length (people st') = (length (people st) - 1)%nat
    /\ (forall n, (n < 1)%nat -> people st' !! n = people st !! n)
    /\ (forall n, (1 <= n)%nat -> people st' !! n = people st !! S n).
Proof.
  intros st. apply (remove_person_shifts_references st 1). simpl. lia.
Defined.

(** X15: removing the expense that was added last, by its index or by
    [-1], gives back the session as it was before [add_expense]. *)
Theorem add_then_remove_expense st desc amt payer mode shares incl :
  remove_expense (add_expense st desc amt payer mode shares incl)
    (Z.of_nat (length (expenses st)))
  = Ok st
  /\ remove_expense (add_expense st desc amt payer mode shares incl) (-1)
     = Ok st.
Proof.
  destruct st as [ps es]. unfold remove_expense, add_expense.
  cbn [people expenses]. rewrite length_app. cbn [length].
  assert (Hdel : forall e : expense, delete (length es) (es ++ [e]) = es).
  { intros e. induction es as [|e0 es IH]; [reflexivity|].
    simpl. f_equal. exact IH. }
  split.
  - rewrite py_index_of_nat by lia. cbn [bind]. rewrite Hdel. reflexivity.
  - unfold py_index.
    assert (H1 : ((0 <=? -1) && (-1 <? Z.of_nat (length es + 1)))%Z = false)
      by reflexivity.
    assert (H2 : ((- Z.of_nat (length es + 1) <=? -1) && (-1 <? 0))%Z = true).
    { apply andb_true_iff. split; [apply Z.leb_le; lia | reflexivity]. }
    rewrite H1, H2. cbn [bind].
    replace (Z.to_nat (Z.of_nat (length es + 1) + -1)) with (length es) by lia.
    rewrite Hdel. reflexivity.
Qed.
